(** * nanoframe: interned symbols, grouping indexes and column utilities

    A shallow embedding of [nanoframe.h] and the properties of it that the
    specification states.

    Conventions of the embedding:
    - [std::vector<T>] (a [Column<T>]) is a [list T]; [v[i]] is stdpp's
      list lookup and [v[i] = x] its insert.
    - [std::unordered_map<std::string, Int>] is a [gmap string Z].
    - The unsigned integer type [Int] of [Symbol<TAG, Int>] is a [Z] reduced
      modulo [2 ^ w], [w] being the type's width (16 for the default
      [std::uint16_t]). In [Index<Int>] (32 by default) the width decides
      whether the loops that count in [Int] end.
    - Code that mutates an object takes the object's value and returns the
      new one; a call whose behaviour is undefined or that does not return
      is [None].
    - [std::sort] is any routine that keeps the contract the standard gives
      it; where the code is run on concrete rows to see what it does with
      equal keys, it is the routine of GNU libstdc++.

    The definitions come first, then the lemmas and, for each part of the
    header, the claims of the specification. *)

From stdpp Require Import gmap strings list pretty sorting.

Local Open Scope Z_scope.

(** ** String interning for factors *)

(** Conversion of a [size_t] value to the [w]-bit unsigned type [Int]. *)
Definition to_Int (w : Z) (x : Z) : Z := x `mod` 2 ^ w.

(** One function-local static table per instantiation
    [intern_table<TAG, Int>]: the statics are keyed by the tag's name and the
    width of [Int]. Two types [Int] of one width, which have a table each
    in the code, are not told apart; what is stated of two instantiations is
    stated of two that differ in the tag or in the width. A static that was
    never reached is the empty table it will be constructed as. *)
Definition intern_table (tag : string) (w : Z)
    (statics : gmap (string * Z) (gmap string Z)) : gmap string Z :=
  default ∅ (statics !! (tag, w)).

Record Symbol := { val : Z }.

(** [Symbol(null_symbol) : val(0) {}] *)
Definition Symbol_null (statics : gmap (string * Z) (gmap string Z))
    : Symbol * gmap (string * Z) (gmap string Z) :=
  ({| val := 0 |}, statics).

(** The body of [Symbol(const std::string& s)] on the table it has a
    reference to: [find], and on a miss [table[s] = table.size() + 1]
    followed by a second [find]. The right operand of the assignment is
    evaluated before [table[s]] inserts, so [size] is the size before the
    insertion. *)
Definition intern (w : Z) (s : string) (table : gmap string Z)
    : Z * gmap string Z :=
  match table !! s with
  | Some v => (v, table)
  | None =>
      let table' := <[s := to_Int w (Z.of_nat (size table) + 1)]> table in
      (default 0 (table' !! s), table')
  end.

(** [Symbol(const std::string& s)] *)
Definition Symbol_string (tag : string) (w : Z) (s : string)
    (statics : gmap (string * Z) (gmap string Z))
    : Symbol * gmap (string * Z) (gmap string Z) :=
  let '(v, table') := intern w s (intern_table tag w statics) in
  ({| val := v |}, <[(tag, w) := table']> statics).

(** [bool null() const] and [bool ok() const] *)
Definition null (x : Symbol) : bool := bool_decide (val x = 0).
Definition ok (x : Symbol) : bool := bool_decide (val x ≠ 0).

(** Constructing one symbol after another from the strings of [l]. *)
Fixpoint intern_all (w : Z) (l : list string) (table : gmap string Z)
    : list Z * gmap string Z :=
  match l with
  | [] => ([], table)
  | s :: l' =>
      let '(c, table') := intern w s table in
      let '(cs, table'') := intern_all w l' table' in
      (c :: cs, table'')
  end.

Fixpoint Symbol_strings (tag : string) (w : Z) (l : list string)
    (statics : gmap (string * Z) (gmap string Z))
    : list Symbol * gmap (string * Z) (gmap string Z) :=
  match l with
  | [] => ([], statics)
  | s :: l' =>
      let '(x, statics') := Symbol_string tag w s statics in
      let '(xs, statics'') := Symbol_strings tag w l' statics' in
      (x :: xs, statics'')
  end.

(** The table in which the strings of [order], each seen for the first time
    in that order, were interned: the string at position [k] has the code
    [k + 1] reduced to [Int]. *)
Definition first_seen (w : Z) (order : list string) (table : gmap string Z)
    : Prop :=
  NoDup order ∧
  size table = length order ∧
  ∀ s c, table !! s = Some c ↔
         ∃ k : nat, order !! k = Some s ∧ c = to_Int w (Z.of_nat k + 1).

(** [n] distinct strings: the decimal numerals of [0 .. n-1]. *)
Definition numerals (n : nat) : list string := pretty <$> seq 0 n.


(** ** Grouping and summarizing indexes *)

(** The key type [K] of the function [vals] handed to the constructor: its
    [operator<] is a strict total order and its [operator!=] is
    inequality. *)
Class Key (K : Type) := {
  key_eq_dec :: EqDecision K;
  key_lt : relation K;
  key_lt_dec :: RelDecision key_lt;
  key_lt_strict :: StrictOrder key_lt;
  key_lt_trichotomy :: Trichotomy key_lt;
}.

#[export] Instance nat_lt_trichotomy : Trichotomy Nat.lt.
Proof. intros x y. lia. Qed.

#[export] Instance Z_lt_trichotomy : Trichotomy Z.lt.
Proof. intros x y. lia. Qed.

#[export] Instance nat_Key : Key nat := {| key_lt := Nat.lt |}.
#[export] Instance Z_Key : Key Z := {| key_lt := Z.lt |}.

(** *** [std::sort]

    The sort routine is the standard library's. What [std::sort(first, last,
    comp)] promises, for a [comp] that is a strict weak ordering, is that
    the range is rearranged so that no element is [comp]-less than one
    before it; it does not promise to keep equivalent elements in their
    order. The constructor is modelled for any routine that keeps this
    contract. *)
Definition strict_weak_ordering (comp : nat → nat → bool) : Prop :=
  (∀ x, comp x x = false)
  ∧ (∀ x y z, comp x y = true → comp y z = true → comp x z = true)
  ∧ (∀ x y z, comp x y = false → comp y x = false →
              comp y z = false → comp z y = false →
              comp x z = false ∧ comp z x = false).

Definition std_sort_contract
    (sort : (nat → nat → bool) → list nat → list nat) : Prop :=
  ∀ comp l, strict_weak_ordering comp →
    sort comp l ≡ₚ l
    ∧ StronglySorted (λ x y, comp y x = false) (sort comp l).

(** A routine that keeps the contract, for the examples: the insertion sort
    that takes the elements from the back of the range and puts each into
    the sorted part, before the equivalent elements already there. *)
Fixpoint insert_before (comp : nat → nat → bool) (x : nat) (l : list nat)
    : list nat :=
  match l with
  | [] => [x]
  | y :: l' =>
      if comp y x then y :: insert_before comp x l' else x :: y :: l'
  end.

Definition insertion_sort (comp : nat → nat → bool) (l : list nat)
    : list nat :=
  foldr (insert_before comp) [] l.

(** *** [Index]

    Row ids and positions are values of the unsigned type [Int] of
    [Index<Int>], [std::uint32_t] by default; they are below [ix.size()],
    and are natural numbers here. The width [w] of [Int] matters where a
    loop counts in [Int] up to a [size_t]. *)
Record Index := { ix : list nat; group_start : list nat }.

(** [range_t]: the iterators [b] and [e] are positions in [ix]. *)
Record range_t := { group_head : nat; b : nat; e : nat }.

(** The rows [range_t::for_each] hands to its function, in order. *)
Definition range_rows (this : Index) (r : range_t) : list nat :=
  take (e r - b r) (drop (b r) (ix this)).

(** [size_t size() const] *)
Definition range_size (r : range_t) : nat := e r - b r.

(** The values [i] takes in [for (Int i = from; i < n; ++i)], where [n] is
    a [size_t] and [Int] has [w] bits. When the loop is entered and [n] is
    not below [2 ^ w], [i] wraps around to 0 before it reaches [n], and the
    loop has no end: [None]. *)
Definition Int_upto (w : Z) (from n : nat) : option (list nat) :=
  if bool_decide (n ≤ from)%nat then Some []
  else if bool_decide (Z.of_nat n < 2 ^ w) then Some (seq from (n - from))
  else None.

Section Index.
Context {K : Type} `{!Key K}.

(** The comparison the constructor hands to [std::sort]. *)
Definition by_vals (vals : nat → K) (x y : nat) : bool :=
  bool_decide (key_lt (vals x) (vals y)).

(** One round of the constructor's second loop:
    [if (vals(ix[prev_i]) != vals(ix[i])) prev_i = i;
     group_start[i] = ix[prev_i];] *)
Definition group_start_step (vals : nat → K) (ix : list nat)
    (st : nat * list nat) (i : nat) : nat * list nat :=
  let prev_i :=
    if bool_decide (vals (ix !!! st.1) ≠ vals (ix !!! i)) then i else st.1 in
  (prev_i, <[i := ix !!! prev_i]> st.2).

(** The constructor from [if (ix.empty())] on, [ix] being sorted and
    [group_start] having its [n] value-initialised elements. *)
Definition Index_groups (w : Z) (vals : nat → K) (n : nat) (ix : list nat)
    : option Index :=
  let group_start := replicate n 0%nat in
  if bool_decide (ix = []) then Some {| ix := ix; group_start := group_start |}
  else
    let group_start := <[0%nat := ix !!! 0%nat]> group_start in
    let prev_i := group_start !!! 0%nat in
    positions ← Int_upto w 1 (length ix);
    let st := foldl (group_start_step vals ix) (prev_i, group_start)
                positions in
    Some {| ix := ix; group_start := st.2 |}.

(** [Index(size_t n, FUNC vals)]: [ix(n)] and [group_start(n)], the loop
    [ix[i] = i], [std::sort], and the rest. *)
Definition Index_ctor (w : Z)
    (sort : (nat → nat → bool) → list nat → list nat)
    (n : nat) (vals : nat → K) : option Index :=
  positions ← Int_upto w 0 n;
  let ix := foldl (λ ix i, <[i := i]> ix) (replicate n 0%nat) positions in
  Index_groups w vals n (sort (by_vals vals) ix).

End Index.

(** [merge]: the function [f] gets each range by value, with constant
    iterators into [ix]; it acts on a state [U] of its caller's. The loop
    carries the index, [prev_i] and that state. *)
Definition merge_step {U : Type} (f : range_t → U → U)
    (st : Index * nat * U) (i : nat) : Index * nat * U :=
  let '(this, prev_i, u) := st in
  if bool_decide (group_start this !!! i ≠ group_start this !!! prev_i)
  then
    (this, i,
     f {| group_head := group_start this !!! prev_i; b := prev_i; e := i |} u)
  else (this, prev_i, u).

(** [Index<Int> merge(FUNC f)]: the value returned, the index afterwards and
    the caller's state afterwards. *)
Definition merge {U : Type} (f : range_t → U → U) (this : Index) (u : U)
    : Index * (Index * U) :=
  let '(this, prev_i, u) :=
    foldl (merge_step f) (this, 0%nat, u) (seq 0 (length (ix this))) in
  let u :=
    if bool_decide (0 < length (group_start this))%nat
    then f {| group_head := group_start this !!! prev_i;
              b := prev_i; e := length (ix this) |} u
    else u in
  (this, (this, u)).

(** The ranges [merge] hands to its function, in the order of the calls. *)
Definition ranges (this : Index) : list range_t :=
  (merge (λ r rs, rs ++ [r]) this []).2.2.

(** [std::unique] followed by [erase]: of every run of equal consecutive
    elements the first is kept. *)
Fixpoint unique_from (x : nat) (l : list nat) : list nat :=
  match l with
  | [] => []
  | y :: l' =>
      if bool_decide (x = y) then unique_from x l' else y :: unique_from y l'
  end.

Definition unique (l : list nat) : list nat :=
  match l with
  | [] => []
  | x :: l' => x :: unique_from x l'
  end.

(** [Column<Int> indexes() const] *)
Definition indexes (this : Index) : list nat := unique (group_start this).

(** The rows of equal key are in their original order: what a stable sort
    would leave. *)
Definition stable_order {K : Type} (vals : nat → K) (ix : list nat) : Prop :=
  ∀ (i j : nat) ri rj,
    (i < j)%nat → ix !! i = Some ri → ix !! j = Some rj →
    vals ri = vals rj → (ri < rj)%nat.

(** The keys of the specification's scenarios, as functions of the row. *)
Definition vals_of (keys : list nat) (row : nat) : nat := keys !!! row.

(** [chain rs from to]: the ranges [rs] follow one another from position
    [from] to position [to], each beginning where the one before ended and
    none empty. *)
Fixpoint chain (rs : list range_t) (from to : nat) : Prop :=
  match rs with
  | [] => from = to
  | r :: rs' => b r = from ∧ (from < e r)%nat ∧ chain rs' (e r) to
  end.

(** ** Utility functions *)

Module utility.

(** How a call that may throw ends. *)
Inductive result : Type :=
  | returned
  | runtime_error (what : string).

(** [std::to_string] of a [size_t] is its decimal numeral. *)
Definition size_mismatch (t_size s_size : nat) : string :=
  "Column size mismatch in nanoframe::transform: "
    +:+ pretty t_size +:+ " != " +:+ pretty s_size.

(** One round of [for (size_t i = 0; i < t.size(); ++i) t[i] = f(t[i],
    s[i]);]. Both subscripts are in range there, as [i < t.size()] and the
    sizes are equal. *)
Definition transform_step {A B : Type} (f : A → B → A) (s : list B)
    (t : list A) (i : nat) : list A :=
  match t !! i, s !! i with
  | Some x, Some y => <[i := f x y]> t
  | _, _ => t
  end.

(** [transform(Container auto& t, const Container auto& s, auto f)]: the
    column [t] afterwards and how the call ended; the reference returned
    is to [t]. *)
Definition transform {A B : Type} (t : list A) (s : list B) (f : A → B → A)
    : list A * result :=
  if bool_decide (length t ≠ length s)
  then (t, runtime_error (size_mismatch (length t) (length s)))
  else (foldl (transform_step f s) t (seq 0 (length t)), returned).

(** One round of the loop of the overload that copies:
    [ret[i] = f(t[i], s[i]);] *)
Definition transform_copy_step {A B : Type} (f : A → B → A)
    (t : list A) (s : list B) (ret : list A) (i : nat) : list A :=
  match t !! i, s !! i with
  | Some x, Some y => <[i := f x y]> ret
  | _, _ => ret
  end.

(** [transform(const T& t, const Container auto& s, auto f)]: the message
    of the exception, or the column returned. *)
Definition transform_copy {A B : Type} (t : list A) (s : list B)
    (f : A → B → A) : string + list A :=
  if bool_decide (length t ≠ length s)
  then inl (size_mismatch (length t) (length s))
  else inr (foldl (transform_copy_step f t s) t (seq 0 (length t))).

(** One round of [for (auto i : ix) ret.push_back(t[i]);]. The subscript
    is unchecked: out of range the behaviour is undefined, [None] here. *)
Definition filter_step {T : Type} (t : list T) (ret : option (list T))
    (i : nat) : option (list T) :=
  match ret, t !! i with
  | Some ret, Some x => Some (ret ++ [x])
  | _, _ => None
  end.

(** [filter(const Column<T>& t, const Column<Int>& ix)] *)
Definition filter {T : Type} (t : list T) (ix : list nat)
    : option (list T) :=
  foldl (filter_step t) (Some []) ix.

End utility.

(** ** The rest of [Symbol], [range_t] and the utility functions *)

(** [auto operator<=>(const Symbol<TAG, Int>& a) const = default;]: the
    members are compared in turn, and [val] is the only one. *)
Definition Symbol_compare (x a : Symbol) : comparison := val x ?= val a.

(** [range_t::for_each]: [for (auto i = b; i != e; ++i) f( *i );]. The
    iterator walks the positions from [b] to [e] and is dereferenced at
    each; with [e] before [b], or a position outside [ix], the behaviour
    is undefined: [None]. The function acts on a state [U] of its
    caller's. *)
Definition for_each_step {U : Type} (f : nat → U → U) (this : Index)
    (u : option U) (i : nat) : option U :=
  match u, ix this !! i with
  | Some u, Some row => Some (f row u)
  | _, _ => None
  end.

Definition for_each {U : Type} (f : nat → U → U) (this : Index)
    (r : range_t) (u : U) : option U :=
  if bool_decide (b r ≤ e r)%nat
  then foldl (for_each_step f this) (Some u) (seq (b r) (e r - b r))
  else None.

(** One round of [for (auto& val : t) val = f(val, v);], at the element
    of index [i]. *)
Definition transform_scalar_step {A V : Type} (f : A → V → A) (v : V)
    (t : list A) (i : nat) : list A :=
  match t !! i with
  | Some val => <[i := f val v]> t
  | None => t
  end.

(** [transform(Container auto& t, const auto& v, auto f)]: the column [t]
    afterwards; there is no check and nothing is thrown. *)
Definition transform_scalar {A V : Type} (t : list A) (v : V) (f : A → V → A)
    : list A :=
  foldl (transform_scalar_step f v) t (seq 0 (length t)).

(** [transform(const T& t, const auto& v, auto f)]: [T ret(t)], the same
    loop over [ret], and [ret] returned. *)
Definition transform_scalar_copy {A V : Type} (t : list A) (v : V)
    (f : A → V → A) : list A :=
  let ret := t in
  foldl (transform_scalar_step f v) ret (seq 0 (length ret)).

(** ** [std::sort] as GNU libstdc++ has it

    The standard fixes the contract of [std::sort] and no more; what the
    routine does with elements that compare equivalent is the
    implementation's. To run the constructor on concrete rows the routine of
    GNU libstdc++ ([bits/stl_algo.h] and [bits/stl_heap.h], GCC 12) is
    embedded here, function by function: an introsort that partitions a range
    of more than [_S_threshold] elements around the median of three of them,
    falls back to a heap sort when the recursion gets too deep, and ends
    with an insertion sort over the whole range.

    The range is a [list nat] and an iterator is a position in it. Reading
    outside the range is undefined behaviour, [None]; every write is to a
    position that was read before. The loops whose rounds are not counted by
    a position take the number of rounds they can make at most as [fuel]. *)
Module std.
Section sort.
Context (comp : nat → nat → bool).

Definition _S_threshold : nat := 16.

(** [std::__lg(n)]: the position of the highest bit set. *)
Definition __lg (n : nat) : nat := Nat.log2 n.

Definition iter_swap (v : list nat) (a b : nat) : option (list nat) :=
  x ← v !! a; y ← v !! b; Some (<[b := x]> (<[a := y]> v)).

(** [std::move_backward(first, last, d_last)] within one range, towards its
    end: the elements of [first, last) come to stand before [d_last]. *)
Definition move_backward (v : list nat) (first last d_last : nat)
    : list nat :=
  take (d_last - (last - first)) v
    ++ take (last - first) (drop first v) ++ drop d_last v.

(** [for (i = first; i != last; ++i) body(i)] *)
Definition for_iterators (first last : nat)
    (body : list nat → nat → option (list nat)) (v : list nat)
    : option (list nat) :=
  if bool_decide (first ≤ last)%nat
  then foldl (λ v i, v ≫= λ v, body v i) (Some v) (seq first (last - first))
  else None.

(** Swaps the median value of [*a], [*b] and [*c] under [comp] to
    [*result]. *)
Definition __move_median_to_first (v : list nat) (result a b c : nat)
    : option (list nat) :=
  x ← v !! a; y ← v !! b; z ← v !! c;
  if comp x y then
    if comp y z then iter_swap v result b
    else if comp x z then iter_swap v result c
    else iter_swap v result a
  else if comp x z then iter_swap v result a
  else if comp y z then iter_swap v result c
  else iter_swap v result b.

(** The loop of [__unguarded_linear_insert]:
    [while (comp(val, next)) { *last = *next; last = next; --next; }
     *last = val;] with [next] right before [last]. *)
Fixpoint __unguarded_linear_insert_loop (v : list nat) (val last : nat)
    : option (list nat) :=
  match last with
  | 0%nat => None
  | S next =>
      x ← v !! next;
      if comp val x
      then __unguarded_linear_insert_loop (<[S next := x]> v) val next
      else Some (<[S next := val]> v)
  end.

Definition __unguarded_linear_insert (v : list nat) (last : nat)
    : option (list nat) :=
  val ← v !! last; __unguarded_linear_insert_loop v val last.

Definition __insertion_sort (v : list nat) (first last : nat)
    : option (list nat) :=
  if bool_decide (first = last) then Some v
  else
    for_iterators (S first) last
      (λ v i,
         val ← v !! i; x ← v !! first;
         if comp val x
         then Some (<[first := val]> (move_backward v first i (S i)))
         else __unguarded_linear_insert v i)
      v.

Definition __unguarded_insertion_sort (v : list nat) (first last : nat)
    : option (list nat) :=
  for_iterators first last __unguarded_linear_insert v.

Definition __final_insertion_sort (v : list nat) (first last : nat)
    : option (list nat) :=
  if bool_decide (_S_threshold < last - first)%nat then
    v ← __insertion_sort v first (first + _S_threshold);
    __unguarded_insertion_sort v (first + _S_threshold) last
  else __insertion_sort v first last.

(** [while (comp(first, pivot)) ++first;] *)
Fixpoint __unguarded_partition_up (fuel : nat) (v : list nat)
    (first pivot : nat) : option nat :=
  x ← v !! first; p ← v !! pivot;
  if comp x p then
    match fuel with
    | 0%nat => None
    | S fuel => __unguarded_partition_up fuel v (S first) pivot
    end
  else Some first.

(** [while (comp(pivot, last)) --last;] *)
Fixpoint __unguarded_partition_down (v : list nat) (last pivot : nat)
    : option nat :=
  x ← v !! last; p ← v !! pivot;
  if comp p x then
    match last with
    | 0%nat => None
    | S last => __unguarded_partition_down v last pivot
    end
  else Some last.

Fixpoint __unguarded_partition (fuel : nat) (v : list nat)
    (first last pivot : nat) : option (list nat * nat) :=
  first ← __unguarded_partition_up (length v) v first pivot;
  match last with
  | 0%nat => None
  | S last =>
      last ← __unguarded_partition_down v last pivot;
      if bool_decide (¬ (first < last)%nat) then Some (v, first)
      else
        match fuel with
        | 0%nat => None
        | S fuel =>
            v ← iter_swap v first last;
            __unguarded_partition fuel v (S first) last pivot
        end
  end.

Definition __unguarded_partition_pivot (v : list nat) (first last : nat)
    : option (list nat * nat) :=
  let mid := (first + (last - first) / 2)%nat in
  v ← __move_median_to_first v first (first + 1) mid (last - 1);
  __unguarded_partition (length v) v (first + 1) last first.

(** [bits/stl_heap.h]. The indexes into the heap are relative to
    [first]. *)
Fixpoint __push_heap (fuel : nat) (v : list nat)
    (first holeIndex topIndex value : nat) : option (list nat) :=
  let parent := ((holeIndex - 1) / 2)%nat in
  if bool_decide (topIndex < holeIndex)%nat then
    p ← v !! (first + parent)%nat;
    if comp p value then
      match fuel with
      | 0%nat => None
      | S fuel =>
          __push_heap fuel (<[(first + holeIndex)%nat := p]> v)
            first parent topIndex value
      end
    else Some (<[(first + holeIndex)%nat := value]> v)
  else Some (<[(first + holeIndex)%nat := value]> v).

(** The loop of [__adjust_heap]; it returns the range, [holeIndex] and
    [secondChild]. *)
Fixpoint __adjust_heap_loop (fuel : nat) (v : list nat)
    (first holeIndex secondChild len : nat)
    : option (list nat * nat * nat) :=
  if bool_decide (secondChild < (len - 1) / 2)%nat then
    match fuel with
    | 0%nat => None
    | S fuel =>
        let secondChild := (2 * (secondChild + 1))%nat in
        x ← v !! (first + secondChild)%nat;
        y ← v !! (first + (secondChild - 1))%nat;
        let secondChild :=
          if comp x y then (secondChild - 1)%nat else secondChild in
        z ← v !! (first + secondChild)%nat;
        __adjust_heap_loop fuel (<[(first + holeIndex)%nat := z]> v)
          first secondChild secondChild len
    end
  else Some (v, holeIndex, secondChild).

Definition __adjust_heap (v : list nat) (first holeIndex len value : nat)
    : option (list nat) :=
  let topIndex := holeIndex in
  '(v, holeIndex, secondChild) ←
    __adjust_heap_loop len v first holeIndex holeIndex len;
  '(v, holeIndex) ←
    (if bool_decide (len `mod` 2 = 0 ∧ secondChild = (len - 2) / 2)%nat
     then
       let secondChild := (2 * (secondChild + 1))%nat in
       x ← v !! (first + (secondChild - 1))%nat;
       Some (<[(first + holeIndex)%nat := x]> v, (secondChild - 1)%nat)
     else Some (v, holeIndex));
  __push_heap holeIndex v first holeIndex topIndex value.

Definition __pop_heap (v : list nat) (first last result : nat)
    : option (list nat) :=
  value ← v !! result; x ← v !! first;
  __adjust_heap (<[result := x]> v) first 0 (last - first) value.

(** [parent] goes from [(len - 2) / 2] down to 0. *)
Definition __make_heap (v : list nat) (first last : nat)
    : option (list nat) :=
  if bool_decide (last - first < 2)%nat then Some v
  else
    let len := (last - first)%nat in
    foldl (λ v parent,
             v ← v; value ← v !! (first + parent)%nat;
             __adjust_heap v first parent len value)
      (Some v) (reverse (seq 0 (S ((len - 2) / 2)))).

(** [while (last - first > 1) { --last; __pop_heap(first, last, last); }] *)
Definition __sort_heap (v : list nat) (first last : nat)
    : option (list nat) :=
  foldl (λ v last, v ← v; __pop_heap v first last last)
    (Some v) (reverse (seq (S first) (last - first - 1))).

Definition __heap_select (v : list nat) (first middle last : nat)
    : option (list nat) :=
  v ← __make_heap v first middle;
  foldl (λ v i,
           v ← v; x ← v !! i; y ← v !! first;
           if comp x y then __pop_heap v first middle i else Some v)
    (Some v) (seq middle (last - middle)).

Definition __partial_sort (v : list nat) (first middle last : nat)
    : option (list nat) :=
  v ← __heap_select v first middle last;
  __sort_heap v first middle.

(** [__introsort_loop]: the round of the [while] loop that follows the
    recursive call for [cut, last) is the call for [first, cut) with the
    same [depth_limit]. *)
Fixpoint __introsort_loop (v : list nat) (first last depth_limit : nat)
    : option (list nat) :=
  if bool_decide (_S_threshold < last - first)%nat then
    match depth_limit with
    | 0%nat => __partial_sort v first last last
    | S depth_limit =>
        '(v, cut) ← __unguarded_partition_pivot v first last;
        v ← __introsort_loop v cut last depth_limit;
        __introsort_loop v first cut depth_limit
    end
  else Some v.

Definition __sort (v : list nat) (first last : nat) : option (list nat) :=
  if bool_decide (first ≠ last) then
    v ← __introsort_loop v first last (__lg (last - first) * 2);
    __final_insertion_sort v first last
  else Some v.

(** [std::sort(v.begin(), v.end(), comp)] *)
Definition sort (v : list nat) : option (list nat) :=
  __sort v 0 (length v).

End sort.
End std.

(** The call [std::sort(ix.begin(), ix.end(), comp)] of the constructor,
    with libstdc++'s routine. Undefined behaviour, which takes a [comp] that
    is no strict weak ordering, is not told apart from a range left as it
    was. *)
Definition std_sort (comp : nat → nat → bool) (l : list nat) : list nat :=
  default l (std.sort comp l).

(** * Lemmas and claims *)

(** ** The table of interned strings *)

Section intern_table.
Context (w : Z).

Lemma intern_hit s c (table : gmap string Z) :
  table !! s = Some c → intern w s table = (c, table).
Proof. unfold intern. by intros ->. Qed.

Lemma intern_miss s (table : gmap string Z) :
  table !! s = None →
  intern w s table =
    (to_Int w (Z.of_nat (size table) + 1),
     <[s := to_Int w (Z.of_nat (size table) + 1)]> table).
Proof. unfold intern. intros ->. cbn. by rewrite lookup_insert_eq. Qed.

Lemma first_seen_empty : first_seen w [] ∅.
Proof.
  split; [constructor|]. split; [done|].
  intros s c. rewrite lookup_empty. split; [done|].
  by intros (k & Hk & _).
Qed.

Lemma first_seen_fresh order (table : gmap string Z) s :
  first_seen w order table → table !! s = None → s ∉ order.
Proof.
  intros (_ & _ & Hl) Hs [k Hk]%list_elem_of_lookup.
  assert (table !! s = Some (to_Int w (Z.of_nat k + 1))) as Hc
    by (apply Hl; eauto).
  congruence.
Qed.

Lemma first_seen_insert order (table : gmap string Z) s :
  first_seen w order table → table !! s = None →
  first_seen w (order ++ [s])
    (<[s := to_Int w (Z.of_nat (size table) + 1)]> table).
Proof.
  intros Hfs Hs. pose proof (first_seen_fresh _ _ _ Hfs Hs) as Hnin.
  destruct Hfs as (Hnd & Hsz & Hl). split; [|split].
  - apply NoDup_app. split; [done|]. split; [|apply NoDup_singleton].
    intros x Hx ->%list_elem_of_singleton. done.
  - rewrite map_size_insert_None by done. rewrite length_app. cbn. lia.
  - intros s' c. destruct (decide (s' = s)) as [->|Hne].
    + rewrite lookup_insert_eq. split.
      * intros [= <-]. exists (length order). split.
        -- by rewrite lookup_app_r, Nat.sub_diag by lia.
        -- by rewrite Hsz.
      * intros (k & Hk & ->). f_equal.
        destruct (decide (k < length order)%nat) as [Hlt|Hge].
        -- rewrite lookup_app_l in Hk by done.
           exfalso. apply Hnin. apply list_elem_of_lookup. eauto.
        -- apply lookup_lt_Some in Hk. rewrite length_app in Hk. cbn in Hk.
           rewrite Hsz. do 2 f_equal. lia.
    + rewrite lookup_insert_ne by done. rewrite Hl. split.
      * intros (k & Hk & ->). exists k. split; [|done].
        rewrite lookup_app_l; [done|]. by eapply lookup_lt_Some.
      * intros (k & Hk & ->). exists k. split; [|done].
        destruct (decide (k < length order)%nat) as [Hlt|Hge].
        -- by rewrite lookup_app_l in Hk.
        -- rewrite lookup_app_r in Hk by lia.
           apply list_lookup_singleton_Some in Hk as [_ ?]. congruence.
Qed.

Lemma intern_first_seen order (table : gmap string Z) s :
  first_seen w order table →
  first_seen w (if decide (s ∈ order) then order else order ++ [s])
    (intern w s table).2.
Proof.
  intros Hfs. destruct (table !! s) as [c|] eqn:Hs.
  - rewrite (intern_hit _ _ _ Hs). cbn.
    destruct Hfs as (Hnd & Hsz & Hl). apply Hl in Hs as (k & Hk & _).
    rewrite decide_True; [done|]. apply list_elem_of_lookup. eauto.
  - rewrite (intern_miss _ _ Hs). cbn.
    rewrite decide_False by by eapply first_seen_fresh.
    by apply first_seen_insert.
Qed.

Lemma intern_lookup s (table : gmap string Z) :
  (intern w s table).2 !! s = Some (intern w s table).1.
Proof.
  destruct (table !! s) as [c|] eqn:Hs.
  - by rewrite (intern_hit _ _ _ Hs).
  - rewrite (intern_miss _ _ Hs). cbn. by rewrite lookup_insert_eq.
Qed.

(** The dictionary only grows: an entry is never removed or renumbered. *)
Lemma intern_preserves s s' c (table : gmap string Z) :
  table !! s' = Some c → (intern w s table).2 !! s' = Some c.
Proof.
  intros Hs'. destruct (table !! s) as [c'|] eqn:Hs.
  - by rewrite (intern_hit _ _ _ Hs).
  - rewrite (intern_miss _ _ Hs). cbn.
    rewrite lookup_insert_ne; [done|]. congruence.
Qed.

Lemma intern_all_cons s l (table : gmap string Z) :
  intern_all w (s :: l) table =
    ((intern w s table).1 :: (intern_all w l (intern w s table).2).1,
     (intern_all w l (intern w s table).2).2).
Proof.
  cbn. destruct (intern w s table) as [c t']. cbn.
  by destruct (intern_all w l t') as [cs t''].
Qed.

Lemma intern_all_preserves l s c (table : gmap string Z) :
  table !! s = Some c → (intern_all w l table).2 !! s = Some c.
Proof.
  revert table. induction l as [|s' l IH]; intros table Hs; [done|].
  rewrite intern_all_cons. cbn. by apply IH, intern_preserves.
Qed.

(** The code a construction returned is the one the final table holds. *)
Lemma intern_all_lookup l (table : gmap string Z) (i : nat) s c :
  l !! i = Some s → (intern_all w l table).1 !! i = Some c →
  (intern_all w l table).2 !! s = Some c.
Proof.
  revert table i. induction l as [|s' l IH]; intros table i Hi Hc; [done|].
  rewrite intern_all_cons in Hc |- *. cbn in *. destruct i as [|i].
  - cbn in *. injection Hi as ->. injection Hc as <-.
    apply intern_all_preserves, intern_lookup.
  - cbn in *. by eapply IH.
Qed.

Lemma intern_all_first_seen l order (table : gmap string Z) :
  first_seen w order table →
  ∃ order', first_seen w order' (intern_all w l table).2.
Proof.
  revert order table. induction l as [|s l IH]; intros order table Hfs.
  - by exists order.
  - rewrite intern_all_cons. cbn. eapply IH, intern_first_seen, Hfs.
Qed.

(** Strings none of which was seen before get the next codes in turn, each
    reduced to [Int]. *)
Lemma intern_all_fresh l order (table : gmap string Z) :
  first_seen w order table → NoDup (order ++ l) →
  (intern_all w l table).1 =
    (λ k : nat, to_Int w (Z.of_nat k + 1)) <$> seq (length order) (length l)
  ∧ first_seen w (order ++ l) (intern_all w l table).2.
Proof.
  revert order table. induction l as [|s l IH]; intros order table Hfs Hnd.
  - cbn. by rewrite app_nil_r.
  - rewrite intern_all_cons. cbn.
    assert (s ∉ order) as Hnin.
    { apply NoDup_app in Hnd as (_ & Hd & _). intros Hin.
      apply (Hd s Hin). left. }
    assert (table !! s = None) as Hs.
    { destruct (table !! s) as [c|] eqn:Hs; [|done].
      destruct Hfs as (_ & _ & Hl). apply Hl in Hs as (k & Hk & _).
      exfalso. apply Hnin, list_elem_of_lookup. eauto. }
    pose proof (first_seen_insert _ _ _ Hfs Hs) as Hfs'.
    rewrite (intern_miss _ _ Hs). cbn.
    destruct (IH _ _ Hfs') as [IH1 IH2].
    { by rewrite <-(assoc_L (++)). }
    rewrite IH1. rewrite <-(assoc_L (++)) in IH2. cbn in IH2.
    split; [|done]. rewrite length_app. cbn.
    destruct Hfs as (_ & -> & _). do 3 f_equal. lia.
Qed.

(** While the table holds fewer than [2 ^ w] strings no code was reduced:
    the codes are [1 .. size], one per string. *)
Lemma first_seen_code_range order (table : gmap string Z) s c :
  first_seen w order table → Z.of_nat (size table) < 2 ^ w →
  table !! s = Some c → 1 ≤ c ≤ Z.of_nat (size table).
Proof.
  intros (_ & Hsz & Hl) Hw (k & Hk%lookup_lt_Some & ->)%Hl.
  unfold to_Int. rewrite Z.mod_small; lia.
Qed.

Lemma first_seen_inj order (table : gmap string Z) s1 s2 c :
  first_seen w order table → Z.of_nat (size table) < 2 ^ w →
  table !! s1 = Some c → table !! s2 = Some c → s1 = s2.
Proof.
  intros (_ & Hsz & Hl) Hw (k1 & Hk1 & ->)%Hl (k2 & Hk2 & Heq)%Hl.
  pose proof (lookup_lt_Some _ _ _ Hk1). pose proof (lookup_lt_Some _ _ _ Hk2).
  unfold to_Int in Heq. rewrite !Z.mod_small in Heq by lia.
  assert (k1 = k2) as -> by lia. congruence.
Qed.

End intern_table.

Section symbols.
Context (tag : string) (w : Z).
Implicit Types statics : gmap (string * Z) (gmap string Z).

Lemma intern_table_empty : intern_table tag w ∅ = ∅.
Proof. unfold intern_table. by rewrite lookup_empty. Qed.

Lemma intern_table_insert (table : gmap string Z) statics :
  intern_table tag w (<[(tag, w) := table]> statics) = table.
Proof. unfold intern_table. by rewrite lookup_insert_eq. Qed.

Lemma Symbol_string_unfold s statics :
  Symbol_string tag w s statics =
    ({| val := (intern w s (intern_table tag w statics)).1 |},
     <[(tag, w) := (intern w s (intern_table tag w statics)).2]> statics).
Proof.
  unfold Symbol_string. by destruct (intern w s (intern_table tag w statics)).
Qed.

Lemma Symbol_string_table s statics :
  intern_table tag w (Symbol_string tag w s statics).2 =
    (intern w s (intern_table tag w statics)).2.
Proof. rewrite Symbol_string_unfold. cbn. apply intern_table_insert. Qed.

(** A string that is found leaves every static as it was. *)
Lemma Symbol_string_hit s c statics :
  intern_table tag w statics !! s = Some c →
  Symbol_string tag w s statics = ({| val := c |}, statics).
Proof.
  intros Hs. rewrite Symbol_string_unfold, (intern_hit _ _ _ _ Hs). cbn.
  f_equal. apply insert_id. unfold intern_table in *.
  destruct (statics !! (tag, w)) as [table|]; [done|].
  cbn in Hs. by rewrite lookup_empty in Hs.
Qed.

Lemma Symbol_strings_cons s l statics :
  Symbol_strings tag w (s :: l) statics =
    ((Symbol_string tag w s statics).1
       :: (Symbol_strings tag w l (Symbol_string tag w s statics).2).1,
     (Symbol_strings tag w l (Symbol_string tag w s statics).2).2).
Proof.
  cbn. destruct (Symbol_string tag w s statics) as [x st']. cbn.
  by destruct (Symbol_strings tag w l st') as [xs st''].
Qed.

Lemma Symbol_strings_intern_all l statics :
  val <$> (Symbol_strings tag w l statics).1 =
    (intern_all w l (intern_table tag w statics)).1
  ∧ intern_table tag w (Symbol_strings tag w l statics).2 =
    (intern_all w l (intern_table tag w statics)).2.
Proof.
  revert statics. induction l as [|s l IH]; intros statics; [done|].
  rewrite Symbol_strings_cons, intern_all_cons. cbn.
  destruct (IH (Symbol_string tag w s statics).2) as [IH1 IH2].
  rewrite IH1, IH2, Symbol_string_table.
  split; [|done]. f_equal. by rewrite Symbol_string_unfold.
Qed.

(** Every table the constructors build from an empty one lists its strings
    in first-seen order. *)
Lemma Symbol_strings_first_seen l statics :
  intern_table tag w statics = ∅ →
  ∃ order,
    first_seen w order (intern_table tag w (Symbol_strings tag w l statics).2).
Proof.
  intros He. destruct (Symbol_strings_intern_all l statics) as [_ ->].
  rewrite He. eapply intern_all_first_seen, first_seen_empty.
Qed.

Lemma Symbol_strings_fresh l statics :
  intern_table tag w statics = ∅ → NoDup l →
  val <$> (Symbol_strings tag w l statics).1 =
    (λ k : nat, to_Int w (Z.of_nat k + 1)) <$> seq 0 (length l).
Proof.
  intros He Hnd. destruct (Symbol_strings_intern_all l statics) as [-> _].
  rewrite He.
  by destruct (intern_all_fresh w l [] ∅ (first_seen_empty w) Hnd) as [-> _].
Qed.

End symbols.

Lemma numerals_NoDup n : NoDup (numerals n).
Proof. apply (NoDup_fmap_2 _), NoDup_seq. Qed.

Lemma numerals_length n : length (numerals n) = n.
Proof. unfold numerals. by rewrite length_fmap, length_seq. Qed.

Lemma numerals_lookup (n k : nat) :
  (k < n)%nat → numerals n !! k = Some (pretty k).
Proof.
  intros Hk. unfold numerals. rewrite list_lookup_fmap.
  by rewrite lookup_seq_lt.
Qed.

(** The symbol built from the [k]-th of [n] distinct strings, starting from
    an empty table, has the code [k + 1] reduced to [Int]. *)
Lemma Symbol_strings_numerals tag w (n k : nat) :
  (k < n)%nat →
  (Symbol_strings tag w (numerals n) ∅).1 !! k =
    Some {| val := to_Int w (Z.of_nat k + 1) |}.
Proof.
  intros Hk.
  pose proof (Symbol_strings_fresh tag w (numerals n) ∅ (intern_table_empty _ _)
                (numerals_NoDup n)) as Hc.
  apply (f_equal (λ cs, cs !! k)) in Hc.
  rewrite !list_lookup_fmap, numerals_length, lookup_seq_lt in Hc by done.
  cbn in Hc.
  destruct ((Symbol_strings tag w (numerals n) ∅).1 !! k) as [[v]|];
    cbn in Hc; congruence.
Qed.

Lemma Symbol_strings_numerals_table tag w (n : nat) :
  first_seen w (numerals n)
    (intern_table tag w (Symbol_strings tag w (numerals n) ∅).2).
Proof.
  destruct (Symbol_strings_intern_all tag w (numerals n) ∅) as [_ ->].
  by destruct (intern_all_fresh w (numerals n) [] ∅ (first_seen_empty w)
                 (numerals_NoDup n)) as [_ ?].
Qed.

(** The string interned when the table already holds [n] others. *)
Lemma Symbol_string_after_numerals tag w (n : nat) :
  let statics := (Symbol_strings tag w (numerals n) ∅).2 in
  intern_table tag w statics !! pretty n = None
  ∧ size (intern_table tag w statics) = n
  ∧ val (Symbol_string tag w (pretty n) statics).1
      = to_Int w (Z.of_nat n + 1).
Proof.
  intros statics.
  pose proof (Symbol_strings_numerals_table tag w n) as Hfs.
  fold statics in Hfs.
  assert (intern_table tag w statics !! pretty n = None) as Hnone.
  { destruct (intern_table tag w statics !! pretty n) as [c|] eqn:Hs; [|done].
    destruct Hfs as (_ & _ & Hl). apply Hl in Hs as (k & Hk & _).
    pose proof (lookup_lt_Some _ _ _ Hk) as Hlt.
    rewrite numerals_length in Hlt.
    rewrite numerals_lookup in Hk by done.
    injection Hk as Hk%(inj pretty). lia. }
  assert (size (intern_table tag w statics) = n) as Hsz.
  { destruct Hfs as (_ & -> & _). apply numerals_length. }
  split; [done|]. split; [done|].
  rewrite Symbol_string_unfold. cbn.
  rewrite (intern_miss _ _ _ Hnone). cbn. by rewrite Hsz.
Qed.

(** ** Interning: the claims *)

(** C5, as amended. For every tag, every width [w] of [Int] and every string
    [s]: a string that is already in the tag's table gets its existing code
    and no static changes (neither the code nor the size of the dictionary);
    a string that is not gets [size + 1] and is entered with it, provided
    [size + 1] is representable in [Int]; hence the symbols built from
    pairwise distinct strings, starting from an empty table and fewer than
    [2 ^ w] of them, have the codes [1, 2, ...] in that order. *)
Theorem Symbol_string_first_seen_codes (tag : string) (w : Z) (s : string)
    (statics : gmap (string * Z) (gmap string Z)) :
  let table := intern_table tag w statics in
  let r := Symbol_string tag w s statics in
  (∀ c, table !! s = Some c → val r.1 = c ∧ r.2 = statics)
  ∧ (table !! s = None → Z.of_nat (size table) + 1 < 2 ^ w →
       val r.1 = Z.of_nat (size table) + 1
       ∧ intern_table tag w r.2 = <[s := Z.of_nat (size table) + 1]> table
       ∧ size (intern_table tag w r.2) = S (size table))
  ∧ (∀ l, table = ∅ → NoDup l → Z.of_nat (length l) < 2 ^ w →
       val <$> (Symbol_strings tag w l statics).1
         = Z.of_nat <$> seq 1 (length l)).
Proof.
  intros table r. split; [|split].
  - intros c Hs. subst r. by rewrite (Symbol_string_hit _ _ _ _ _ Hs).
  - intros Hs Hw. subst r. rewrite Symbol_string_table.
    rewrite Symbol_string_unfold. cbn. fold table.
    rewrite (intern_miss _ _ _ Hs). cbn.
    unfold to_Int. rewrite Z.mod_small by lia.
    split; [done|]. split; [done|]. by rewrite map_size_insert_None.
  - intros l He Hnd Hw. rewrite Symbol_strings_fresh by done.
    rewrite <-(fmap_S_seq 0), <-list_fmap_compose.
    apply list_fmap_ext. intros i k Hk%lookup_seq. cbn.
    unfold to_Int. rewrite Z.mod_small; lia.
Qed.

(** The specification's scenario: ["red"], ["blue"], ["red"] under one tag
    get the codes 1, 2, 1. *)
Lemma Symbol_string_first_seen_codes_witness :
  let statics1 := (Symbol_string "Color" 16 "red" ∅).2 in
  let statics2 := (Symbol_string "Color" 16 "blue" statics1).2 in
  val (Symbol_string "Color" 16 "blue" statics1).1 = 2
  ∧ val (Symbol_string "Color" 16 "red" statics2).1 = 1
  ∧ (Symbol_string "Color" 16 "red" statics2).2 = statics2
  ∧ val <$> (Symbol_strings "Color" 16 ["red"; "blue"] ∅).1 = [1; 2].
Proof.
  intros statics1 statics2.
  destruct (Symbol_string_first_seen_codes "Color" 16 "blue" statics1)
    as (_ & Hmiss & _).
  destruct (Symbol_string_first_seen_codes "Color" 16 "red" statics2)
    as (Hhit & _ & _).
  destruct (Symbol_string_first_seen_codes "Color" 16 "red" ∅)
    as (_ & _ & Hall).
  split; [|split; [|split]].
  - apply Hmiss; [vm_compute; reflexivity | vm_compute; reflexivity].
  - apply (Hhit 1). vm_compute; reflexivity.
  - apply (Hhit 1). vm_compute; reflexivity.
  - apply (Hall ["red"; "blue"]);
      [apply intern_table_empty | | vm_compute; reflexivity].
    apply (bool_decide_unpack _). vm_compute. exact I.
Defined.

(** C5 as stated fails where [size + 1] is not representable: with the
    default [std::uint16_t], the string interned when the table holds 65535
    others is not in the table, and its code is 0, not 65536. *)
Lemma Symbol_string_code_not_size_plus_one :
  let statics := (Symbol_strings "Color" 16 (numerals (Z.to_nat 65535)) ∅).2 in
  let table := intern_table "Color" 16 statics in
  let s := pretty (Z.to_nat 65535) in
  table !! s = None
  ∧ Z.of_nat (size table) + 1 = 65536
  ∧ val (Symbol_string "Color" 16 s statics).1 = 0
  ∧ val (Symbol_string "Color" 16 s statics).1 ≠ Z.of_nat (size table) + 1.
Proof.
  intros statics table s.
  destruct (Symbol_string_after_numerals "Color" 16 (Z.to_nat 65535))
    as (Hnone & Hsz & Hval).
  fold statics in Hnone, Hsz, Hval. fold table in Hnone, Hsz. fold s in Hval.
  assert (val (Symbol_string "Color" 16 s statics).1 = 0) as H0.
  { rewrite Hval. rewrite Z2Nat.id by lia. reflexivity. }
  split; [done|]. split; [rewrite Hsz; lia|]. split; [done|].
  rewrite H0, Hsz. lia.
Qed.

(** C6, as amended. For every tag and width [w] of [Int], and every sequence
    of strings from which symbols are built one after another, starting with
    the tag's table empty: the symbols built from equal strings are equal;
    and as long as the table ends with fewer than [2 ^ w] strings, two of
    the symbols are equal if and only if their strings are. *)
Theorem Symbol_string_eq_iff (tag : string) (w : Z) (l : list string)
    (statics : gmap (string * Z) (gmap string Z)) :
  intern_table tag w statics = ∅ →
  let r := Symbol_strings tag w l statics in
  ∀ (i j : nat) si sj xi xj,
    l !! i = Some si → l !! j = Some sj →
    r.1 !! i = Some xi → r.1 !! j = Some xj →
    (si = sj → xi = xj)
    ∧ (Z.of_nat (size (intern_table tag w r.2)) < 2 ^ w →
       (xi = xj ↔ si = sj)).
Proof.
  intros He r i j si sj xi xj Hi Hj Hxi Hxj.
  destruct (Symbol_strings_first_seen tag w l statics He) as [order Hfs].
  destruct (Symbol_strings_intern_all tag w l statics) as [Hc Ht].
  fold r in Hfs, Hc, Ht.
  assert (∀ (k : nat) s x, l !! k = Some s → r.1 !! k = Some x →
            intern_table tag w r.2 !! s = Some (val x)) as Hfinal.
  { intros k s x Hk Hx. rewrite Ht.
    apply (intern_all_lookup w l _ k); [done|].
    rewrite <-Hc, list_lookup_fmap, Hx. done. }
  pose proof (Hfinal _ _ _ Hi Hxi) as Hsi.
  pose proof (Hfinal _ _ _ Hj Hxj) as Hsj.
  assert (si = sj → xi = xj) as Heq.
  { intros ->. destruct xi, xj. cbn in *. congruence. }
  split; [done|]. intros Hw. split; [|done].
  intros ->. by eapply first_seen_inj.
Qed.

(** The specification's scenario: of the symbols built from ["red"],
    ["blue"], ["red"], the first and the third are equal, the first and the
    second are not. *)
Lemma Symbol_string_eq_iff_witness :
  ({| val := 1 |} = {| val := 1 |} ↔ "red" = "red")
  ∧ ({| val := 1 |} = {| val := 2 |} ↔ "red" = "blue").
Proof.
  split.
  - apply (Symbol_string_eq_iff "Color" 16 ["red"; "blue"; "red"] ∅
             (intern_table_empty _ _) 0%nat 2%nat);
      vm_compute; reflexivity.
  - apply (Symbol_string_eq_iff "Color" 16 ["red"; "blue"; "red"] ∅
             (intern_table_empty _ _) 0%nat 1%nat);
      vm_compute; reflexivity.
Defined.

(** C6 as stated fails once the codes wrap around: with the default
    [std::uint16_t], the first and the 65537th of 65537 distinct strings
    both get the code 1. *)
Lemma Symbol_string_code_collision :
  let l := numerals (Z.to_nat 65537) in
  let r := Symbol_strings "Color" 16 l ∅ in
  l !! 0%nat = Some "0" ∧ l !! Z.to_nat 65536 = Some "65536"
  ∧ r.1 !! 0%nat = Some {| val := 1 |}
  ∧ r.1 !! Z.to_nat 65536 = Some {| val := 1 |}.
Proof.
  intros l r. subst r l.
  split; [by rewrite numerals_lookup by lia|].
  split.
  { rewrite numerals_lookup by lia. vm_compute. reflexivity. }
  split.
  - rewrite Symbol_strings_numerals by lia. reflexivity.
  - rewrite Symbol_strings_numerals by lia.
    rewrite Z2Nat.id by lia. reflexivity.
Qed.

(** C7, as amended. The symbol built from the null marker has the code 0
    and no static changes; [null] holds exactly of the code 0 and [ok] of
    every other; and for every tag and width [w] of [Int], whatever strings
    were interned since the tag's table was empty, the symbol built from a
    string is not the code 0 as long as the table holds fewer than [2 ^ w]
    strings afterwards. *)
Theorem Symbol_null_code (tag : string) (w : Z) (l : list string) (s : string)
    (statics : gmap (string * Z) (gmap string Z)) :
  Symbol_null statics = ({| val := 0 |}, statics)
  ∧ (∀ x, null x = true ↔ val x = 0)
  ∧ (∀ x, ok x = negb (null x))
  ∧ (intern_table tag w statics = ∅ →
     let r := Symbol_string tag w s (Symbol_strings tag w l statics).2 in
     Z.of_nat (size (intern_table tag w r.2)) < 2 ^ w →
     val r.1 ≠ 0 ∧ null r.1 = false).
Proof.
  split; [done|]. split; [|split].
  - intros x. unfold null. apply bool_decide_eq_true.
  - intros x. unfold ok, null. by rewrite bool_decide_not.
  - intros He r Hw.
    destruct (Symbol_strings_first_seen tag w l statics He) as [order Hfs].
    pose proof (intern_first_seen w _ _ s Hfs) as Hfs'.
    subst r. rewrite Symbol_string_table in Hw.
    rewrite Symbol_string_unfold. cbn.
    pose proof (first_seen_code_range w _ _ s _ Hfs' Hw
                  (intern_lookup w s _)) as Hr.
    split; [lia|]. unfold null. cbn. apply bool_decide_eq_false. lia.
Qed.

Lemma Symbol_null_code_witness :
  val (Symbol_string "Color" 16 "red"
         (Symbol_strings "Color" 16 ["red"; "blue"] ∅).2).1 ≠ 0.
Proof.
  destruct (Symbol_null_code "Color" 16 ["red"; "blue"] "red" ∅)
    as (_ & _ & _ & H).
  apply H; [apply intern_table_empty | vm_compute; reflexivity].
Defined.

(** C7 as stated fails at the same place as C5: with the default
    [std::uint16_t], the 65536th distinct string gets the code 0, the null
    symbol's. *)
Lemma Symbol_string_code_zero :
  let statics := (Symbol_strings "Color" 16 (numerals (Z.to_nat 65535)) ∅).2 in
  let x := (Symbol_string "Color" 16 (pretty (Z.to_nat 65535)) statics).1 in
  val x = 0 ∧ null x = true.
Proof.
  intros statics x.
  destruct (Symbol_string_after_numerals "Color" 16 (Z.to_nat 65535))
    as (_ & _ & Hval).
  fold statics in Hval. fold x in Hval.
  assert (val x = 0) as H0.
  { rewrite Hval. rewrite Z2Nat.id by lia. reflexivity. }
  split; [done|]. unfold null. by apply bool_decide_eq_true.
Qed.

(** ** A sort routine that keeps the contract of [std::sort] *)

Section sorting.
Context (comp : nat → nat → bool).

Lemma insert_before_Permutation x l : insert_before comp x l ≡ₚ x :: l.
Proof.
  induction l as [|y l IH]; cbn; [done|].
  destruct (comp y x); [|done]. rewrite IH. apply Permutation_swap.
Qed.

Lemma insertion_sort_Permutation l : insertion_sort comp l ≡ₚ l.
Proof.
  induction l as [|x l IH]; cbn; [done|].
  by rewrite insert_before_Permutation, IH.
Qed.

Context (Hswo : strict_weak_ordering comp).

Lemma swo_asym x y : comp x y = true → comp y x = false.
Proof.
  destruct Hswo as (Hirr & Htr & _). intros Hxy.
  destruct (comp y x) eqn:Hyx; [|done].
  pose proof (Htr _ _ _ Hxy Hyx). by rewrite Hirr in *.
Qed.

Lemma swo_neg_trans x y z :
  comp y x = false → comp z y = false → comp z x = false.
Proof.
  destruct Hswo as (Hirr & Htr & Heqv). intros Hyx Hzy.
  destruct (comp z x) eqn:Hzx; [|done]. exfalso.
  destruct (comp y z) eqn:Hyz.
  { pose proof (Htr _ _ _ Hyz Hzx). congruence. }
  destruct (comp x y) eqn:Hxy.
  { pose proof (Htr _ _ _ Hzx Hxy). congruence. }
  destruct (Heqv z y x); congruence.
Qed.

Lemma insert_before_sorted x l :
  StronglySorted (λ x y, comp y x = false) l →
  StronglySorted (λ x y, comp y x = false) (insert_before comp x l).
Proof.
  induction 1 as [|y l Hs IH Hy]; cbn.
  - by repeat constructor.
  - destruct (comp y x) eqn:Hyx.
    + constructor; [done|].
      rewrite insert_before_Permutation. constructor; [|done].
      by apply swo_asym.
    + constructor; [by constructor|]. constructor; [done|].
      eapply Forall_impl; [exact Hy|]. cbn. intros z Hzy.
      by eapply swo_neg_trans.
Qed.

Lemma insertion_sort_sorted l :
  StronglySorted (λ x y, comp y x = false) (insertion_sort comp l).
Proof.
  induction l as [|x l IH]; cbn; [constructor|].
  by apply insert_before_sorted.
Qed.

End sorting.

Lemma insertion_sort_contract : std_sort_contract insertion_sort.
Proof.
  intros comp l Hswo. split.
  - apply insertion_sort_Permutation.
  - by apply insertion_sort_sorted.
Qed.

(** ** The comparison by key *)

Section by_vals.
Context {K : Type} `{!Key K}.
Implicit Types vals : nat → K.

Lemma by_vals_true vals x y :
  by_vals vals x y = true ↔ key_lt (vals x) (vals y).
Proof. unfold by_vals. apply bool_decide_eq_true. Qed.

Lemma by_vals_false vals x y :
  by_vals vals x y = false ↔ ¬ key_lt (vals x) (vals y).
Proof. unfold by_vals. apply bool_decide_eq_false. Qed.

(** Rows are equivalent for the comparison exactly when their keys are
    equal. *)
Lemma by_vals_equiv vals x y :
  by_vals vals x y = false → by_vals vals y x = false → vals x = vals y.
Proof.
  rewrite !by_vals_false. intros Hxy Hyx.
  by destruct (trichotomy key_lt (vals x) (vals y)) as [?|[?|?]].
Qed.

Lemma by_vals_strict_weak_ordering vals : strict_weak_ordering (by_vals vals).
Proof.
  split; [|split].
  - intros x. apply by_vals_false, irreflexivity, _.
  - intros x y z. rewrite !by_vals_true. apply transitivity.
  - intros x y z Hxy Hyx Hyz Hzy.
    pose proof (by_vals_equiv _ _ _ Hxy Hyx) as Hx.
    pose proof (by_vals_equiv _ _ _ Hyz Hzy) as Hz.
    rewrite !by_vals_false, Hx, Hz.
    split; apply irreflexivity, _.
Qed.

End by_vals.

(** ** [merge] and the constructor of [Index] *)

Lemma chain_app rs1 rs2 from mid to :
  chain rs1 from mid → chain rs2 mid to → chain (rs1 ++ rs2) from to.
Proof.
  revert from. induction rs1 as [|r rs1 IH]; intros from; cbn.
  - by intros ->.
  - intros (? & ? & ?) ?. eauto.
Qed.

Lemma chain_le rs from to : chain rs from to → (from ≤ to)%nat.
Proof.
  revert from. induction rs as [|r rs IH]; intros from; cbn.
  - by intros ->.
  - intros (_ & ? & ?%IH). lia.
Qed.

(** Ranges that follow one another cut out one slice of [ix]. *)
Lemma chain_concat this rs from to :
  chain rs from to →
  concat (range_rows this <$> rs) = take (to - from) (drop from (ix this)).
Proof.
  revert from. induction rs as [|r rs IH]; intros from; cbn.
  - intros ->. by rewrite Nat.sub_diag.
  - intros (Hb & Hlt & Hc). rewrite (IH _ Hc). unfold range_rows. rewrite Hb.
    pose proof (chain_le _ _ _ Hc).
    replace (to - from)%nat with ((e r - from) + (to - e r))%nat by lia.
    rewrite <-take_take_drop, drop_drop.
    by replace (from + (e r - from))%nat with (e r) by lia.
Qed.

Lemma foldl_snoc_all {A} (acc l : list A) :
  foldl (λ acc x, acc ++ [x]) acc l = acc ++ l.
Proof.
  revert acc. induction l as [|x l IH]; intros acc; cbn.
  - by rewrite app_nil_r.
  - by rewrite IH, <-(assoc_L (++)).
Qed.

(** The loop of [merge] over the positions below [m]: whatever the function
    [f], it is called on the same ranges [rs], which follow one another up
    to [prev_i], and the index is carried along unchanged. *)
Lemma merge_loop this (m : nat) :
  ∃ (prev_i : nat) (rs : list range_t),
    (∀ (U : Type) (f : range_t → U → U) (u : U),
       foldl (merge_step f) (this, 0%nat, u) (seq 0 m)
         = (this, prev_i, foldl (λ u r, f r u) u rs))
    ∧ chain rs 0 prev_i
    ∧ (prev_i ≤ m)%nat ∧ ((0 < m)%nat → (prev_i < m)%nat).
Proof.
  induction m as [|m (p & rs & Hf & Hc & Hle & Hlt)].
  - exists 0%nat, []. cbn. split; [done|]. split; [done|]. lia.
  - destruct (decide (group_start this !!! m ≠ group_start this !!! p))
      as [Hne|Heq].
    + exists m, (rs ++ [{| group_head := group_start this !!! p;
                          b := p; e := m |}]).
      assert (p < m)%nat as Hpm.
      { destruct (decide (p = m)) as [->|]; [done|lia]. }
      split; [|split; [|lia]].
      * intros U f u. rewrite seq_S, !foldl_snoc, Hf. cbn.
        by rewrite bool_decide_true.
      * eapply chain_app; [exact Hc|]. cbn. done.
    + exists p, rs. split; [|split; [done|lia]].
      intros U f u. rewrite seq_S, foldl_snoc, Hf. cbn.
      by rewrite bool_decide_false.
Qed.

Lemma merge_unfold {U} (f : range_t → U → U) this this' (prev_i : nat) u u' :
  foldl (merge_step f) (this, 0%nat, u) (seq 0 (length (ix this)))
    = (this', prev_i, u') →
  merge f this u =
    (this',
     (this',
      if bool_decide (0 < length (group_start this'))%nat
      then f {| group_head := group_start this' !!! prev_i;
                b := prev_i; e := length (ix this') |} u'
      else u')).
Proof. unfold merge. by intros ->. Qed.

(** The calls of any function are the ranges [ranges] records. *)
Lemma merge_ranges {U} (f : range_t → U → U) this u :
  (merge f this u).2.2 = foldl (λ u r, f r u) u (ranges this).
Proof.
  destruct (merge_loop this (length (ix this))) as (p & rs & Hf & _).
  unfold ranges.
  rewrite (merge_unfold _ _ _ _ _ _ (Hf _ f u)).
  rewrite (merge_unfold _ _ _ _ _ _ (Hf _ (λ r rs, rs ++ [r]) [])). cbn.
  rewrite foldl_snoc_all. cbn. case_bool_decide; [|done].
  by rewrite foldl_snoc.
Qed.

Lemma ranges_chain this :
  length (group_start this) = length (ix this) →
  chain (ranges this) 0 (length (ix this)).
Proof.
  intros Hlen.
  destruct (merge_loop this (length (ix this))) as (p & rs & Hf & Hc & Hle & Hlt).
  unfold ranges.
  rewrite (merge_unfold _ _ _ _ _ _ (Hf _ (λ r rs, rs ++ [r]) [])). cbn.
  rewrite foldl_snoc_all. cbn. case_bool_decide as Hpos.
  - eapply chain_app; [exact Hc|]. cbn. split; [done|]. split; [|done].
    apply Hlt. lia.
  - assert (p = 0)%nat as -> by lia.
    by replace (length (ix this)) with 0%nat by lia.
Qed.

Lemma ranges_concat this :
  length (group_start this) = length (ix this) →
  concat (range_rows this <$> ranges this) = ix this.
Proof.
  intros Hlen. rewrite (chain_concat _ _ _ _ (ranges_chain _ Hlen)).
  rewrite Nat.sub_0_r. cbn. apply firstn_all.
Qed.

(** An element of a concatenation without duplicates lies in one part. *)
Lemma NoDup_concat_unique {A} (ls : list (list A)) (k k' : nat) xs ys x :
  NoDup (concat ls) → ls !! k = Some xs → ls !! k' = Some ys →
  x ∈ xs → x ∈ ys → k = k'.
Proof.
  revert k k'. induction ls as [|l ls IH]; intros k k' Hnd Hk Hk' Hx Hy;
    [done|].
  cbn in Hnd. apply NoDup_app in Hnd as (_ & Hdisj & Hnd).
  assert (∀ (i : nat) zs, ls !! i = Some zs → x ∈ zs → x ∈ concat ls) as Hin.
  { intros i zs Hi Hz. apply list_elem_of_In, in_concat. exists zs.
    split; apply list_elem_of_In; [|done]. by eapply list_elem_of_lookup_2. }
  destruct k as [|k], k' as [|k']; cbn in *.
  - done.
  - injection Hk as ->. exfalso. eapply Hdisj; eauto.
  - injection Hk' as ->. exfalso. eapply Hdisj; eauto.
  - f_equal. eauto.
Qed.

Lemma NoDup_concat_part {A} (ls : list (list A)) (k : nat) xs :
  NoDup (concat ls) → ls !! k = Some xs → NoDup xs.
Proof.
  revert k. induction ls as [|l ls IH]; intros k Hnd Hk; [done|].
  cbn in Hnd. apply NoDup_app in Hnd as (Hl & _ & Hnd).
  destruct k as [|k]; cbn in *; [congruence|eauto].
Qed.

Lemma StronglySorted_lookup {A} (R : relation A) l (i j : nat) x y :
  StronglySorted R l → (i < j)%nat →
  l !! i = Some x → l !! j = Some y → R x y.
Proof.
  intros Hs. revert i j. induction Hs as [|z l Hs IH Hz]; intros i j Hij Hi Hj;
    [done|].
  destruct j as [|j]; [lia|]. cbn in Hj. destruct i as [|i]; cbn in Hi.
  - injection Hi as ->. rewrite Forall_forall in Hz. apply Hz.
    by eapply list_elem_of_lookup_2.
  - apply (IH i j); [lia|done..].
Qed.

Lemma Int_upto_inv w (from n : nat) positions :
  Int_upto w from n = Some positions → positions = seq from (n - from).
Proof.
  unfold Int_upto. repeat case_bool_decide; intros [= <-]; [|done].
  by replace (n - from)%nat with 0%nat by lia.
Qed.

Lemma Int_upto_Some w (from n : nat) :
  Z.of_nat n < 2 ^ w → Int_upto w from n = Some (seq from (n - from)).
Proof.
  intros Hn. unfold Int_upto. rewrite (bool_decide_true (_ < _)) by done.
  case_bool_decide; [|done].
  by replace (n - from)%nat with 0%nat by lia.
Qed.

(** The constructor's first loop, [ix[i] = i], after [m] rounds. *)
Lemma iota_loop (n m : nat) :
  (m ≤ n)%nat →
  foldl (λ ix i, <[i := i]> ix) (replicate n 0%nat) (seq 0 m)
    = seq 0 m ++ replicate (n - m) 0%nat.
Proof.
  induction m as [|m IH]; intros Hm.
  - cbn. by rewrite Nat.sub_0_r.
  - rewrite seq_S, foldl_snoc, IH, Nat.add_0_l by lia.
    replace (n - m)%nat with (S (n - S m)) by lia. cbn [replicate].
    rewrite insert_app_r_alt by by rewrite length_seq.
    rewrite length_seq, Nat.sub_diag. cbn.
    by rewrite <-(assoc_L (++)).
Qed.

Lemma iota_loop_all (n : nat) :
  foldl (λ ix i, <[i := i]> ix) (replicate n 0%nat) (seq 0 n) = seq 0 n.
Proof.
  rewrite iota_loop, Nat.sub_diag by lia. cbn. by rewrite app_nil_r.
Qed.

Section Index_built.
Context {K : Type} `{!Key K} (w : Z).
Implicit Types vals : nat → K.

Lemma group_start_loop_length vals l (st : nat * list nat)
    (positions : list nat) :
  length (foldl (group_start_step vals l) st positions).2 = length st.2.
Proof.
  revert st. induction positions as [|i positions IH]; intros st; cbn; [done|].
  rewrite IH. cbn. apply length_insert.
Qed.

Lemma Index_groups_Some vals (n : nat) l this :
  Index_groups w vals n l = Some this →
  ix this = l ∧ length (group_start this) = n.
Proof.
  unfold Index_groups. case_bool_decide.
  - intros [= <-]. cbn. by rewrite length_replicate.
  - destruct (Int_upto w 1 (length l)) as [positions|]; [|done].
    intros [= <-]. cbn. split; [done|].
    rewrite group_start_loop_length. cbn [snd].
    by rewrite length_insert, length_replicate.
Qed.

Lemma Index_groups_is_Some vals (n : nat) l :
  Z.of_nat (length l) < 2 ^ w → is_Some (Index_groups w vals n l).
Proof.
  intros Hl. unfold Index_groups. case_bool_decide; [done|].
  by rewrite Int_upto_Some.
Qed.

Context (sort : (nat → nat → bool) → list nat → list nat).
Context (Hsort : std_sort_contract sort).

Lemma sort_by_vals_Permutation vals l : sort (by_vals vals) l ≡ₚ l.
Proof. apply Hsort, by_vals_strict_weak_ordering. Qed.

Lemma Index_ctor_Some (n : nat) vals this :
  Index_ctor w sort n vals = Some this →
  ix this = sort (by_vals vals) (seq 0 n)
  ∧ length (group_start this) = n.
Proof.
  unfold Index_ctor.
  destruct (Int_upto w 0 n) as [positions|] eqn:Hpos; [|done]. cbn.
  apply Int_upto_inv in Hpos as ->.
  rewrite Nat.sub_0_r, iota_loop_all. apply Index_groups_Some.
Qed.

(** The constructor returns when [n] is a value of [Int]. *)
Lemma Index_ctor_is_Some (n : nat) vals :
  Z.of_nat n < 2 ^ w → is_Some (Index_ctor w sort n vals).
Proof.
  intros Hn. unfold Index_ctor. rewrite Int_upto_Some by done. cbn.
  apply Index_groups_is_Some.
  by rewrite sort_by_vals_Permutation, Nat.sub_0_r, iota_loop_all, length_seq.
Qed.

(** It does not when [n] is not: the first loop has no end. *)
Lemma Index_ctor_None (n : nat) vals :
  2 ^ w ≤ Z.of_nat n → (0 < n)%nat → Index_ctor w sort n vals = None.
Proof.
  intros Hn Hpos. unfold Index_ctor, Int_upto.
  rewrite bool_decide_false by lia. by rewrite bool_decide_false by lia.
Qed.

Lemma Index_ctor_Permutation (n : nat) vals this :
  Index_ctor w sort n vals = Some this → ix this ≡ₚ seq 0 n.
Proof.
  intros [-> _]%Index_ctor_Some. apply sort_by_vals_Permutation.
Qed.

Lemma Index_ctor_sorted (n : nat) vals this :
  Index_ctor w sort n vals = Some this →
  StronglySorted (λ x y, by_vals vals y x = false) (ix this).
Proof.
  intros [-> _]%Index_ctor_Some.
  apply Hsort, by_vals_strict_weak_ordering.
Qed.

Lemma Index_ctor_lengths (n : nat) vals this :
  Index_ctor w sort n vals = Some this →
  length (ix this) = n ∧ length (group_start this) = n.
Proof.
  intros Hthis. split.
  - by rewrite (Index_ctor_Permutation _ _ _ Hthis), length_seq.
  - by apply Index_ctor_Some in Hthis as [_ ?].
Qed.

End Index_built.

(** ** The second loop of the constructor

    [first_of i q]: position [q] is where the group of position [i] begins
    in the sorted [l]. The loop is followed from a [prev_i] that starts at
    position 0, which is what the subscripts [ix[prev_i]] and the
    assignments [prev_i = i] take it for. *)
Section group_start_loop.
Context {K : Type} `{!Key K} (vals : nat → K) (l : list nat).
Context (Hsorted : StronglySorted (λ x y, by_vals vals y x = false) l).

Definition first_of (i q : nat) : Prop :=
  (q ≤ i)%nat
  ∧ vals (l !!! q) = vals (l !!! i)
  ∧ ∀ j, (j < q)%nat → vals (l !!! j) ≠ vals (l !!! q).

Lemma sorted_keys (i j : nat) :
  (i ≤ j < length l)%nat → ¬ key_lt (vals (l !!! j)) (vals (l !!! i)).
Proof.
  intros [Hij Hj]. destruct (decide (i = j)) as [->|Hne].
  - apply irreflexivity, _.
  - apply by_vals_false.
    apply (StronglySorted_lookup (λ x y, by_vals vals y x = false) l i j);
      [done|lia|..]; apply list_lookup_lookup_total_lt; lia.
Qed.

Lemma first_of_unique (i i' q q' : nat) :
  first_of i q → first_of i' q' → vals (l !!! i) = vals (l !!! i') → q = q'.
Proof.
  intros (Hq & Hv & Hf) (Hq' & Hv' & Hf') Heq.
  destruct (Nat.lt_total q q') as [Hlt|[->|Hlt]]; [|done|].
  - exfalso. apply (Hf' q Hlt). congruence.
  - exfalso. apply (Hf q' Hlt). congruence.
Qed.

(** After the rounds for the positions [1 .. m]: [prev_i] is where the
    group of [m] begins, and [group_start] holds, at every position up to
    [m], the row at the beginning of that position's group. *)
Lemma group_start_loop (gs0 : list nat) (m : nat) :
  (S m ≤ length l)%nat → length gs0 = length l →
  gs0 !! 0%nat = Some (l !!! 0%nat) →
  let st := foldl (group_start_step vals l) (0%nat, gs0) (seq 1 m) in
  first_of m st.1
  ∧ length st.2 = length l
  ∧ ∀ i, (i ≤ m)%nat → ∃ q, first_of i q ∧ st.2 !! i = Some (l !!! q).
Proof.
  intros Hm Hlen H0. induction m as [|m IH].
  - cbn. split; [|split; [done|]].
    + split; [done|]. split; [done|]. lia.
    + intros i Hi. assert (i = 0)%nat as -> by lia. exists 0%nat.
      split; [|done]. split; [done|]. split; [done|]. lia.
  - destruct IH as ((Hp & Hv & Hf) & Hl & Hgs); [lia|].
    rewrite seq_S, foldl_snoc. cbn [plus].
    set (st := foldl (group_start_step vals l) (0%nat, gs0) (seq 1 m)) in *.
    unfold group_start_step at 1 2 3. cbn [fst snd].
    assert (first_of (S m)
              (if bool_decide (vals (l !!! st.1) ≠ vals (l !!! S m))
               then S m else st.1)) as Hfirst.
    { case_bool_decide as Hne.
      - split; [done|]. split; [done|]. intros j Hj Heq.
        pose proof (sorted_keys j m ltac:(lia)) as H1.
        pose proof (sorted_keys m (S m) ltac:(lia)) as H2.
        rewrite Heq in H1.
        destruct (trichotomy key_lt (vals (l !!! m)) (vals (l !!! S m)))
          as [?|[?|?]]; [done| |done].
        apply Hne. congruence.
      - split; [lia|]. split; [done|]. done. }
    split; [done|]. split; [by rewrite length_insert|].
    intros i Hi. destruct (decide (i = S m)) as [->|Hne].
    + eexists. split; [exact Hfirst|].
      rewrite list_lookup_insert_eq by lia. done.
    + rewrite list_lookup_insert_ne by done. apply Hgs. lia.
Qed.

End group_start_loop.

Section Index_group_start.
Context {K : Type} `{!Key K} (w : Z).
Context (sort : (nat → nat → bool) → list nat → list nat).
Context (Hsort : std_sort_contract sort).
Implicit Types vals : nat → K.

(** [group_start] of an index that has rows, as the second loop leaves
    it. *)
Lemma Index_ctor_group_start (n : nat) vals this :
  Index_ctor w sort n vals = Some this → ix this ≠ [] →
  group_start this =
    (foldl (group_start_step vals (ix this))
       (ix this !!! 0%nat, <[0%nat := ix this !!! 0%nat]> (replicate n 0%nat))
       (seq 1 (length (ix this) - 1))).2.
Proof.
  intros Hthis Hne. pose proof (Index_ctor_lengths w sort Hsort _ _ _ Hthis)
    as [Hlen _].
  revert Hthis Hne. unfold Index_ctor.
  destruct (Int_upto w 0 n) as [positions|]; [|done]. cbn.
  unfold Index_groups. case_bool_decide as Hnil.
  { intros [= <-]. done. }
  destruct (Int_upto w 1 _) as [positions'|] eqn:Hpos; [|done]. cbn.
  apply Int_upto_inv in Hpos as ->. intros [= <-] _. cbn in *.
  do 3 f_equal. apply list_lookup_total_correct, list_lookup_insert_eq.
  rewrite length_replicate. rewrite <-Hlen.
  destruct (sort _ _); [done|]. cbn. lia.
Qed.

(** Where the sorted rows begin with row 0, [prev_i] starts at position 0
    and the constructor establishes the invariant of [group_start]: two
    positions have the same entry exactly when their rows have equal keys,
    and the entry is the row at the first position with that key. *)
Lemma Index_ctor_group_start_from_row_0 (n : nat) vals this :
  Index_ctor w sort n vals = Some this →
  ix this !! 0%nat = Some 0%nat →
  ∀ (i j : nat) ri rj gi gj,
    ix this !! i = Some ri → ix this !! j = Some rj →
    group_start this !! i = Some gi → group_start this !! j = Some gj →
    (gi = gj ↔ vals ri = vals rj)
    ∧ ∃ q : nat,
        (q ≤ i)%nat ∧ ix this !! q = Some gi ∧ vals gi = vals ri
        ∧ ∀ (q' : nat) r', (q' < q)%nat → ix this !! q' = Some r' →
                           vals r' ≠ vals ri.
Proof.
  intros Hthis H0 i j ri rj gi gj Hi Hj Hgi Hgj.
  assert (ix this ≠ []) as Hne by by intros E; rewrite E in H0.
  pose proof (Index_ctor_lengths w sort Hsort _ _ _ Hthis) as [Hlen Hlen'].
  pose proof (Index_ctor_sorted w sort Hsort _ _ _ Hthis) as Hsorted.
  pose proof (Index_ctor_group_start _ _ _ Hthis Hne) as Hgs.
  rewrite (list_lookup_total_correct _ _ _ H0) in Hgs.
  assert (0 < n)%nat as Hn.
  { rewrite <-Hlen. destruct (ix this); [done|]. cbn. lia. }
  destruct (group_start_loop vals (ix this) Hsorted
              (<[0%nat := 0%nat]> (replicate n 0%nat))
              (length (ix this) - 1)) as (_ & _ & Hloop).
  { lia. }
  { by rewrite length_insert, length_replicate. }
  { rewrite (list_lookup_total_correct _ _ _ H0).
    apply list_lookup_insert_eq. rewrite length_replicate. lia. }
  rewrite <-Hgs in Hloop.
  pose proof (lookup_lt_Some _ _ _ Hi) as Hi'.
  pose proof (lookup_lt_Some _ _ _ Hj) as Hj'.
  destruct (Hloop i ltac:(lia)) as (qi & Hqi & Hgi').
  destruct (Hloop j ltac:(lia)) as (qj & Hqj & Hgj').
  rewrite Hgi in Hgi'. rewrite Hgj in Hgj'.
  injection Hgi' as ->. injection Hgj' as ->.
  pose proof (list_lookup_total_correct _ _ _ Hi) as Hri.
  pose proof (list_lookup_total_correct _ _ _ Hj) as Hrj.
  pose proof Hqi as (Hle & Hv & Hf). pose proof Hqj as (Hle' & Hv' & Hf').
  rewrite Hri in Hv. rewrite Hrj in Hv'.
  split.
  - split.
    + intros Heq. rewrite <-Hv, <-Hv', Heq. done.
    + intros Heq. f_equal.
      apply (first_of_unique vals (ix this) i j); [done..|]. congruence.
  - exists qi. split; [done|]. split; [|split; [done|]].
    + apply list_lookup_lookup_total_lt. lia.
    + intros q' r' Hq' Hr'. rewrite <-Hv.
      rewrite <-(list_lookup_total_correct _ _ _ Hr'). by apply Hf.
Qed.

End Index_group_start.

(** ** Grouping: the claims *)

(** Three rows with the keys 1, 0, 0: whatever the sort routine, rows 1 and
    2 come first, in either order, and row 0 last. *)
Lemma sort_keys_1_0_0 sort :
  std_sort_contract sort →
  sort (by_vals (vals_of [1; 0; 0]%nat)) [0; 1; 2]%nat = [1; 2; 0]%nat
  ∨ sort (by_vals (vals_of [1; 0; 0]%nat)) [0; 1; 2]%nat = [2; 1; 0]%nat.
Proof.
  intros Hsort.
  destruct (Hsort (by_vals (vals_of [1; 0; 0]%nat)) [0; 1; 2]%nat
              (by_vals_strict_weak_ordering _)) as [Hp Hs].
  pose proof (Permutation_length Hp) as Hlen.
  assert (NoDup (sort (by_vals (vals_of [1; 0; 0]%nat)) [0; 1; 2]%nat))
    as Hnd.
  { rewrite Hp. apply (NoDup_seq 0 3). }
  assert (∀ x, x ∈ sort (by_vals (vals_of [1; 0; 0]%nat)) [0; 1; 2]%nat →
               x = 0 ∨ x = 1 ∨ x = 2)%nat as Hin.
  { intros x. rewrite Hp. intros Hx%(elem_of_seq 0 3). lia. }
  destruct (sort (by_vals (vals_of [1; 0; 0]%nat)) [0; 1; 2]%nat)
    as [|x0 [|x1 [|x2 [|]]]]; try done.
  pose proof (StronglySorted_lookup _ _ 0 1 _ _ Hs ltac:(lia) eq_refl eq_refl)
    as H01.
  pose proof (StronglySorted_lookup _ _ 1 2 _ _ Hs ltac:(lia) eq_refl eq_refl)
    as H12.
  apply NoDup_cons in Hnd as [Hn0 Hnd]. apply NoDup_cons in Hnd as [Hn1 _].
  set_unfold in Hn0. set_unfold in Hn1.
  assert (x0 = 0 ∨ x0 = 1 ∨ x0 = 2)%nat as H0
    by (apply Hin, list_elem_of_In; cbn; tauto).
  assert (x1 = 0 ∨ x1 = 1 ∨ x1 = 2)%nat as H1
    by (apply Hin, list_elem_of_In; cbn; tauto).
  assert (x2 = 0 ∨ x2 = 1 ∨ x2 = 2)%nat as H2
    by (apply Hin, list_elem_of_In; cbn; tauto).
  clear Hin Hp Hs Hlen.
  destruct H0 as [-> | [-> | ->]], H1 as [-> | [-> | ->]],
    H2 as [-> | [-> | ->]];
    try (exfalso; tauto); try discriminate; auto.
Qed.

(** The constructor on that input, up to the call of the sort routine. *)
Lemma Index_ctor_keys_1_0_0 sort :
  Index_ctor 32 sort 3 (vals_of [1; 0; 0]%nat)
    = Index_groups 32 (vals_of [1; 0; 0]%nat) 3
        (sort (by_vals (vals_of [1; 0; 0]%nat)) [0; 1; 2]%nat).
Proof. reflexivity. Qed.

(** C1: the constructor does not establish the invariant. On three rows
    with the keys 1, 0, 0 and the default [Int], whatever the sort routine,
    the index is built, the rows at the sorted positions 0 and 1 have equal
    keys, yet [group_start] differs there, and [group_start[1]] is not the
    first row of the group. [prev_i] starts as the row id [group_start[0]]
    where the position 0 is meant. *)
Theorem Index_ctor_group_start_splits_group
    (sort : (nat → nat → bool) → list nat → list nat) :
  std_sort_contract sort →
  let vals := vals_of [1; 0; 0]%nat in
  ∃ this r0 r1 g0 g1,
    Index_ctor 32 sort 3 vals = Some this
    ∧ ix this !! 0%nat = Some r0 ∧ ix this !! 1%nat = Some r1
    ∧ vals r0 = vals r1
    ∧ group_start this !! 0%nat = Some g0
    ∧ group_start this !! 1%nat = Some g1
    ∧ g0 ≠ g1 ∧ g1 ≠ r0.
Proof.
  intros Hsort vals. subst vals. rewrite Index_ctor_keys_1_0_0.
  destruct (sort_keys_1_0_0 sort Hsort) as [-> | ->].
  - exists {| ix := [1; 2; 0]%nat; group_start := [1; 2; 0]%nat |}.
    exists 1%nat, 2%nat, 1%nat, 2%nat. vm_compute. repeat split; lia.
  - exists {| ix := [2; 1; 0]%nat; group_start := [2; 1; 0]%nat |}.
    exists 2%nat, 1%nat, 2%nat, 1%nat. vm_compute. repeat split; lia.
Qed.

Lemma Index_ctor_group_start_splits_group_witness :
  let vals := vals_of [1; 0; 0]%nat in
  ∃ this r0 r1 g0 g1,
    Index_ctor 32 insertion_sort 3 vals = Some this
    ∧ ix this !! 0%nat = Some r0 ∧ ix this !! 1%nat = Some r1
    ∧ vals r0 = vals r1
    ∧ group_start this !! 0%nat = Some g0
    ∧ group_start this !! 1%nat = Some g1
    ∧ g0 ≠ g1 ∧ g1 ≠ r0.
Proof.
  exact (Index_ctor_group_start_splits_group insertion_sort
           insertion_sort_contract).
Defined.

(** The specification's second scenario, rows with the keys 3, 1, 3, 2, 1,
    sorted by an insertion sort that keeps equal keys in order: rows 1 and 4
    share the key 1 and are next to each other in [ix], and [group_start]
    names each of them. *)
Example Index_ctor_scenario :
  Index_ctor 32 insertion_sort 5 (vals_of [3; 1; 3; 2; 1]%nat)
    = Some {| ix := [1; 4; 3; 0; 2]%nat;
              group_start := [1; 4; 3; 0; 0]%nat |}.
Proof. reflexivity. Qed.

Lemma StronglySorted_impl_elem_of {A} (R R' : relation A) (l : list A) :
  (∀ x y, x ∈ l → y ∈ l → R x y → R' x y) →
  StronglySorted R l → StronglySorted R' l.
Proof.
  intros HR Hs. induction Hs as [|x l Hs IH Hx]; constructor.
  - apply IH. intros y z Hy Hz. apply HR; by right.
  - rewrite Forall_forall in *. intros y Hy.
    apply HR; [left|by right|by apply Hx].
Qed.

(** The keys read along a sorted rearrangement of the rows are one list,
    whatever the order in which rows of equal key stand. *)
Lemma sorted_keys_unique {K : Type} `{!Key K} (vals : nat → K)
    (l l' : list nat) :
  l ≡ₚ l' →
  StronglySorted (λ x y, by_vals vals y x = false) l →
  StronglySorted (λ x y, by_vals vals y x = false) l' →
  vals <$> l = vals <$> l'.
Proof.
  intros Hp Hs Hs'.
  apply (StronglySorted_unique_strong (λ key key', ¬ key_lt key' key)).
  - intros key key' _ _ H1 H2.
    by destruct (trichotomy key_lt key key') as [?|[?|?]].
  - eapply StronglySorted_fmap; [|exact Hs]. intros x y. apply by_vals_false.
  - eapply StronglySorted_fmap; [|exact Hs']. intros x y. apply by_vals_false.
  - by apply fmap_Permutation.
Qed.

(** C2, as amended. For every sort routine that keeps the contract of
    [std::sort], every [n] that is a value of [Int] and every key function,
    the index is built, and its [ix] is a rearrangement of [0 .. n-1] in
    which no row has a smaller key than a row before it, so that the rows of
    one key are next to each other; and the keys read along [ix], and with
    them the positions the rows of each key take, are determined by the keys
    of the rows [0 .. n-1]: every build, with whatever routine that keeps
    the contract, gives the same. *)
Theorem Index_ctor_sorts_rows {K : Type} `{!Key K} (w : Z)
    (sort : (nat → nat → bool) → list nat → list nat)
    (n : nat) (vals : nat → K) :
  std_sort_contract sort →
  Z.of_nat n < 2 ^ w →
  ∃ this,
    Index_ctor w sort n vals = Some this
    ∧ ix this ≡ₚ seq 0 n
    ∧ (∀ (i j : nat) ri rj,
         (i < j)%nat → ix this !! i = Some ri → ix this !! j = Some rj →
         ¬ key_lt (vals rj) (vals ri))
    ∧ (∀ (i j k : nat) ri rj rk,
         (i ≤ j ≤ k)%nat →
         ix this !! i = Some ri → ix this !! j = Some rj →
         ix this !! k = Some rk →
         vals ri = vals rk → vals rj = vals ri)
    ∧ (∀ (sort' : (nat → nat → bool) → list nat → list nat)
         (vals' : nat → K) this',
         std_sort_contract sort' →
         (∀ row, (row < n)%nat → vals' row = vals row) →
         Index_ctor w sort' n vals' = Some this' →
         vals' <$> ix this' = vals <$> ix this).
Proof.
  intros Hsort Hn.
  destruct (Index_ctor_is_Some w sort Hsort n vals Hn) as [this Hthis].
  exists this. split; [done|].
  pose proof (Index_ctor_Permutation w sort Hsort n vals this Hthis) as Hp.
  pose proof (Index_ctor_sorted w sort Hsort n vals this Hthis) as Hs.
  assert (∀ (i j : nat) ri rj,
            (i ≤ j)%nat → ix this !! i = Some ri → ix this !! j = Some rj →
            ¬ key_lt (vals rj) (vals ri)) as Hle.
  { intros i j ri rj Hij Hi Hj.
    destruct (decide (i = j)) as [->|Hne].
    - assert (ri = rj) as -> by congruence. apply irreflexivity, _.
    - apply by_vals_false.
      apply (StronglySorted_lookup _ _ i j _ _ Hs); [lia|done..]. }
  split; [done|]. split; [|split].
  - intros i j ri rj Hij. apply Hle. lia.
  - intros i j k ri rj rk [Hij Hjk] Hi Hj Hk Heq.
    pose proof (Hle _ _ _ _ Hij Hi Hj) as H1.
    pose proof (Hle _ _ _ _ Hjk Hj Hk) as H2. rewrite <-Heq in H2.
    by destruct (trichotomy key_lt (vals rj) (vals ri)) as [?|[?|?]].
  - intros sort' vals' this' Hsort' Hext Hthis'.
    pose proof (Index_ctor_Permutation w sort' Hsort' n vals' this' Hthis')
      as Hp'.
    pose proof (Index_ctor_sorted w sort' Hsort' n vals' this' Hthis') as Hs'.
    assert (∀ row, row ∈ ix this' → vals' row = vals row) as Hext'.
    { intros row Hrow. rewrite Hp' in Hrow. apply elem_of_seq in Hrow.
      apply Hext. lia. }
    transitivity (vals <$> ix this').
    { apply list_fmap_ext. intros i row Hrow. apply Hext'.
      by eapply list_elem_of_lookup_2. }
    apply sorted_keys_unique; [by rewrite Hp, Hp'| |done].
    eapply StronglySorted_impl_elem_of; [|exact Hs'].
    intros x y Hx Hy. unfold by_vals. by rewrite !Hext'.
Qed.

Lemma Index_ctor_sorts_rows_witness :
  let vals := vals_of [3; 1; 3; 2; 1]%nat in
  ∃ this,
    Index_ctor 32 insertion_sort 5 vals = Some this
    ∧ ix this ≡ₚ seq 0 5
    ∧ (∀ (i j : nat) ri rj,
         (i < j)%nat → ix this !! i = Some ri → ix this !! j = Some rj →
         ¬ key_lt (vals rj) (vals ri))
    ∧ (∀ (i j k : nat) ri rj rk,
         (i ≤ j ≤ k)%nat →
         ix this !! i = Some ri → ix this !! j = Some rj →
         ix this !! k = Some rk →
         vals ri = vals rk → vals rj = vals ri)
    ∧ (∀ (sort' : (nat → nat → bool) → list nat → list nat)
         (vals' : nat → nat) this',
         std_sort_contract sort' →
         (∀ row, (row < 5)%nat → vals' row = vals row) →
         Index_ctor 32 sort' 5 vals' = Some this' →
         vals' <$> ix this' = vals <$> ix this).
Proof.
  apply (Index_ctor_sorts_rows 32 insertion_sort 5
           (vals_of [3; 1; 3; 2; 1]%nat) insertion_sort_contract).
  reflexivity.
Defined.

(** C2 as stated fails: [std::sort] is not stable. Twenty rows of one key:
    libstdc++'s routine partitions the range, which swaps the row in the
    middle to the front and the rows behind it end for end, and the
    constructor is left with row 10 first and row 0 in the middle. *)
Lemma Index_ctor_not_stable :
  std.sort (by_vals (vals_of (replicate 20 0%nat))) (seq 0 20)
    = Some [10; 19; 18; 17; 16; 15; 14; 13; 12; 11;
            0; 9; 8; 7; 6; 5; 4; 3; 2; 1]%nat
  ∧ Index_ctor 32 std_sort 20 (vals_of (replicate 20 0%nat))
      = Some {| ix := [10; 19; 18; 17; 16; 15; 14; 13; 12; 11;
                       0; 9; 8; 7; 6; 5; 4; 3; 2; 1]%nat;
                group_start := 10%nat :: replicate 19 0%nat |}
  ∧ ¬ stable_order (vals_of (replicate 20 0%nat))
        [10; 19; 18; 17; 16; 15; 14; 13; 12; 11;
         0; 9; 8; 7; 6; 5; 4; 3; 2; 1]%nat.
Proof.
  split; [by vm_compute|]. split; [by vm_compute|].
  intros Hst.
  specialize (Hst 0%nat 10%nat 10%nat 0%nat ltac:(lia) eq_refl eq_refl eq_refl).
  lia.
Qed.

(** C3. For every sort routine that keeps the contract of [std::sort],
    every [n] that is a value of [Int] and every key function, the index is
    built, and: the ranges [merge] hands to its function follow one another
    from position 0 to position [n], none empty; their slices of [ix], put
    together, are [ix], which is a rearrangement of [0 .. n-1]; so every
    row below [n] is in the slice of exactly one range, once. Whatever the
    function, it is called on these ranges in order; for [n = 0] both
    sequences are empty and it is not called. *)
Theorem merge_visits_each_row_once {K : Type} `{!Key K} (w : Z)
    (sort : (nat → nat → bool) → list nat → list nat)
    (n : nat) (vals : nat → K) :
  std_sort_contract sort →
  Z.of_nat n < 2 ^ w →
  ∃ this,
    Index_ctor w sort n vals = Some this
    ∧ chain (ranges this) 0 n
    ∧ concat (range_rows this <$> ranges this) = ix this
    ∧ ix this ≡ₚ seq 0 n
    ∧ (∀ row, (row < n)%nat →
         ∃ (k : nat) r,
           ranges this !! k = Some r
           ∧ row ∈ range_rows this r
           ∧ NoDup (range_rows this r)
           ∧ ∀ (k' : nat) r',
               ranges this !! k' = Some r' → row ∈ range_rows this r' →
               k' = k)
    ∧ (∀ (U : Type) (f : range_t → U → U) (u : U),
         (merge f this u).2.2 = foldl (λ u r, f r u) u (ranges this))
    ∧ (n = 0%nat →
         ix this = [] ∧ group_start this = [] ∧ ranges this = []
         ∧ ∀ (U : Type) (f : range_t → U → U) (u : U),
             (merge f this u).2.2 = u).
Proof.
  intros Hsort Hn.
  destruct (Index_ctor_is_Some w sort Hsort n vals Hn) as [this Hthis].
  exists this. split; [done|].
  destruct (Index_ctor_lengths w sort Hsort n vals this Hthis) as [Hix Hgs].
  pose proof (Index_ctor_Permutation w sort Hsort n vals this Hthis) as Hp.
  assert (length (group_start this) = length (ix this)) as Hlen by congruence.
  pose proof (ranges_chain this Hlen) as Hchain. rewrite Hix in Hchain.
  pose proof (ranges_concat this Hlen) as Hcat.
  assert (NoDup (concat (range_rows this <$> ranges this))) as Hnd.
  { rewrite Hcat, Hp. apply NoDup_seq. }
  split; [done|]. split; [done|]. split; [done|]. split; [|split].
  - intros row Hrow.
    assert (row ∈ concat (range_rows this <$> ranges this)) as Hin.
    { rewrite Hcat, Hp. apply elem_of_seq. lia. }
    apply list_elem_of_In, in_concat in Hin as (rows & Hrows & Hin).
    apply list_elem_of_In, list_elem_of_lookup in Hrows as [k Hk].
    apply list_elem_of_In in Hin.
    pose proof Hk as Hk'. rewrite list_lookup_fmap in Hk'.
    destruct (ranges this !! k) as [r|] eqn:Hr; [|done].
    injection Hk' as <-. exists k, r.
    split; [done|]. split; [done|].
    split; [by eapply NoDup_concat_part|].
    intros k' r' Hr' Hin'.
    apply (NoDup_concat_unique _ k' k (range_rows this r') (range_rows this r)
             row Hnd); [|done..].
    by rewrite list_lookup_fmap, Hr'.
  - intros U f u. apply merge_ranges.
  - intros ->.
    assert (ix this = []) as Hix0 by by apply nil_length_inv.
    assert (group_start this = []) as Hgs0 by by apply nil_length_inv.
    assert (ranges this = []) as Hr0.
    { destruct (ranges this) as [|r rs]; [done|].
      cbn in Hchain. destruct Hchain as (_ & Hlt & Hc%chain_le). lia. }
    split; [done|]. split; [done|]. split; [done|].
    intros U f u. by rewrite merge_ranges, Hr0.
Qed.

(** The specification's second scenario, and no rows at all. *)
Lemma merge_visits_each_row_once_witness :
  (∃ this,
     Index_ctor 32 insertion_sort 5 (vals_of [3; 1; 3; 2; 1]%nat) = Some this
     ∧ chain (ranges this) 0 5
     ∧ concat (range_rows this <$> ranges this) = ix this)
  ∧ (∃ this,
       Index_ctor 32 insertion_sort 0 (vals_of []) = Some this
       ∧ ranges this = []).
Proof.
  split.
  - destruct (merge_visits_each_row_once 32 insertion_sort 5
                (vals_of [3; 1; 3; 2; 1]%nat) insertion_sort_contract
                ltac:(reflexivity))
      as (this & Hthis & H1 & H2 & _).
    exists this. done.
  - destruct (merge_visits_each_row_once 32 insertion_sort 0
                (vals_of []) insertion_sort_contract ltac:(reflexivity))
      as (this & Hthis & _ & _ & _ & _ & _ & H0).
    exists this. split; [done|]. by destruct (H0 eq_refl) as (_ & _ & ? & _).
Defined.

(** The ranges of the specification's second scenario: the rows 1 and 4 of
    key 1 are handed over as two groups. *)
Example ranges_scenario :
  ranges {| ix := [1; 4; 3; 0; 2]%nat; group_start := [1; 4; 3; 0; 0]%nat |}
    = [ {| group_head := 1; b := 0; e := 1 |};
        {| group_head := 4; b := 1; e := 2 |};
        {| group_head := 3; b := 2; e := 3 |};
        {| group_head := 0; b := 3; e := 5 |} ]%nat.
Proof. reflexivity. Qed.

(** C4: the defect of C1 shows in [indexes]. On three rows with the keys 1,
    0, 0 and the default [Int], whatever the sort routine, [indexes] returns
    three row ids where there are two distinct keys, and the first two have
    the same key. *)
Theorem indexes_repeats_key
    (sort : (nat → nat → bool) → list nat → list nat) :
  std_sort_contract sort →
  let vals := vals_of [1; 0; 0]%nat in
  ∃ this r0 r1,
    Index_ctor 32 sort 3 vals = Some this
    ∧ length (indexes this) = 3%nat
    ∧ indexes this !! 0%nat = Some r0 ∧ indexes this !! 1%nat = Some r1
    ∧ vals r0 = vals r1.
Proof.
  intros Hsort vals. subst vals. rewrite Index_ctor_keys_1_0_0.
  destruct (sort_keys_1_0_0 sort Hsort) as [-> | ->].
  - exists {| ix := [1; 2; 0]%nat; group_start := [1; 2; 0]%nat |}.
    by exists 1%nat, 2%nat.
  - exists {| ix := [2; 1; 0]%nat; group_start := [2; 1; 0]%nat |}.
    by exists 2%nat, 1%nat.
Qed.

Lemma indexes_repeats_key_witness :
  let vals := vals_of [1; 0; 0]%nat in
  ∃ this r0 r1,
    Index_ctor 32 insertion_sort 3 vals = Some this
    ∧ length (indexes this) = 3%nat
    ∧ indexes this !! 0%nat = Some r0 ∧ indexes this !! 1%nat = Some r1
    ∧ vals r0 = vals r1.
Proof.
  exact (indexes_repeats_key insertion_sort insertion_sort_contract).
Defined.

(** On the specification's second scenario [indexes] returns four rows for
    three keys: rows 1 and 4 both have the key 1. *)
Example indexes_scenario :
  indexes {| ix := [1; 4; 3; 0; 2]%nat; group_start := [1; 4; 3; 0; 0]%nat |}
    = [1; 4; 3; 0]%nat.
Proof. reflexivity. Qed.

(** C10. [merge] leaves the index it is called on as it was, whatever the
    index and the function: the index after the call, and so its [ix] and
    its [group_start], is the index before it, and so is the index
    returned. *)
Theorem merge_leaves_index {U : Type} (f : range_t → U → U)
    (this : Index) (u : U) :
  (merge f this u).2.1 = this
  ∧ ix (merge f this u).2.1 = ix this
  ∧ group_start (merge f this u).2.1 = group_start this
  ∧ (merge f this u).1 = this.
Proof.
  destruct (merge_loop this (length (ix this))) as (p & rs & Hf & _).
  by rewrite (merge_unfold _ _ _ _ _ _ (Hf _ f u)).
Qed.

(** ** Utility functions: the claims *)

Section transform.
Context {A B : Type} (f : A → B → A) (s : list B).

(** The loops after [m] rounds: the elements below [m] are combined with
    those of [s], the others are as they were. *)
Lemma transform_loop (t : list A) (m : nat) :
  (m ≤ length t)%nat → length t = length s →
  length (foldl (utility.transform_step f s) t (seq 0 m)) = length t
  ∧ ∀ (i : nat) x y,
      t !! i = Some x → s !! i = Some y →
      foldl (utility.transform_step f s) t (seq 0 m) !! i
        = Some (if decide (i < m)%nat then f x y else x).
Proof.
  intros Hm Hlen. induction m as [|m IH].
  - cbn. split; [done|]. intros i x y Hx _. by rewrite decide_False by lia.
  - destruct IH as [IHlen IH]; [lia|].
    rewrite seq_S, foldl_snoc, Nat.add_0_l.
    destruct (lookup_lt_is_Some_2 t m ltac:(lia)) as [xm Hxm].
    destruct (lookup_lt_is_Some_2 s m ltac:(lia)) as [ym Hym].
    pose proof (IH m xm ym Hxm Hym) as Hm'.
    rewrite decide_False in Hm' by lia.
    set (t_m := foldl (utility.transform_step f s) t (seq 0 m)) in *.
    unfold utility.transform_step. rewrite Hm', Hym.
    split; [by rewrite length_insert|].
    intros i x y Hx Hy. destruct (decide (i = m)) as [->|Hne].
    + rewrite list_lookup_insert_eq by lia.
      rewrite decide_True by lia. congruence.
    + rewrite list_lookup_insert_ne by done. rewrite (IH i x y Hx Hy).
      by repeat case_decide; try lia.
Qed.

Lemma transform_copy_loop (t : list A) (m : nat) :
  (m ≤ length t)%nat → length t = length s →
  foldl (utility.transform_copy_step f t s) t (seq 0 m)
    = foldl (utility.transform_step f s) t (seq 0 m).
Proof.
  intros Hm Hlen. induction m as [|m IH]; [done|].
  rewrite seq_S, !foldl_snoc, IH, Nat.add_0_l by lia.
  destruct (lookup_lt_is_Some_2 t m ltac:(lia)) as [xm Hxm].
  destruct (lookup_lt_is_Some_2 s m ltac:(lia)) as [ym Hym].
  destruct (transform_loop t m ltac:(lia) Hlen) as [_ Hl].
  pose proof (Hl m xm ym Hxm Hym) as Hm'.
  rewrite decide_False in Hm' by lia.
  set (t_m := foldl (utility.transform_step f s) t (seq 0 m)) in *.
  unfold utility.transform_copy_step, utility.transform_step.
  by rewrite Hxm, Hym, Hm'.
Qed.

End transform.

(** C8. For all columns [t] and [s] and every function [f]: when the sizes
    differ, [transform] throws the size mismatch with the two sizes in its
    message and [t] is as it was; when they are equal, it ends normally
    with [t] of the same size and [f(t[i], s[i])] at every index [i]. The
    overload that copies throws the same message, or returns that
    column. *)
Theorem transform_checks_sizes {A B : Type} (t : list A) (s : list B)
    (f : A → B → A) :
  (length t ≠ length s →
     utility.transform t s f =
       (t, utility.runtime_error
             ("Column size mismatch in nanoframe::transform: "
                +:+ pretty (length t) +:+ " != " +:+ pretty (length s)))
     ∧ utility.transform_copy t s f =
         inl ("Column size mismatch in nanoframe::transform: "
                +:+ pretty (length t) +:+ " != " +:+ pretty (length s)))
  ∧ (length t = length s →
     ∃ t',
       utility.transform t s f = (t', utility.returned)
       ∧ utility.transform_copy t s f = inr t'
       ∧ length t' = length t
       ∧ ∀ (i : nat) x y,
           t !! i = Some x → s !! i = Some y → t' !! i = Some (f x y)).
Proof.
  split.
  - intros Hne. unfold utility.transform, utility.transform_copy.
    by rewrite bool_decide_true.
  - intros Hlen. unfold utility.transform, utility.transform_copy.
    rewrite bool_decide_false by by intros ?.
    destruct (transform_loop f s t (length t) ltac:(lia) Hlen) as [Hl Hi].
    eexists. split; [done|].
    split; [by rewrite transform_copy_loop|]. split; [done|].
    intros i x y Hx Hy. rewrite (Hi i x y Hx Hy).
    rewrite decide_True; [done|]. by eapply lookup_lt_Some.
Qed.

(** The specification's scenarios 3 and 4. *)
Lemma transform_checks_sizes_witness :
  utility.transform [1; 2; 3] [10; 20; 30] Z.add
    = ([11; 22; 33], utility.returned)
  ∧ utility.transform [1; 2] [10; 20; 30] Z.add
    = ([1; 2],
       utility.runtime_error
         "Column size mismatch in nanoframe::transform: 2 != 3").
Proof.
  split.
  - destruct (transform_checks_sizes [1; 2; 3] [10; 20; 30] Z.add)
      as [_ Heq].
    destruct (Heq eq_refl) as (t' & Ht & _). reflexivity.
  - destruct (transform_checks_sizes [1; 2] [10; 20; 30] Z.add)
      as [Hne _].
    destruct (Hne ltac:(discriminate)) as [Ht _]. exact Ht.
Defined.

Section filter.
Context {T : Type} (t : list T).

(** The loop of [filter], taken from its last round. *)
Lemma filter_snoc (ix : list nat) (i : nat) :
  utility.filter t (ix ++ [i]) =
    match utility.filter t ix, t !! i with
    | Some ret, Some x => Some (ret ++ [x])
    | _, _ => None
    end.
Proof. unfold utility.filter. by rewrite foldl_snoc. Qed.

Lemma filter_in_range (ix : list nat) :
  (∀ i, i ∈ ix → (i < length t)%nat) →
  ∃ ret,
    utility.filter t ix = Some ret
    ∧ length ret = length ix
    ∧ ∀ (k i : nat), ix !! k = Some i → ret !! k = t !! i.
Proof.
  induction ix as [|i ix IH] using rev_ind; intros Hin.
  - exists []. by split.
  - destruct IH as (ret & Hret & Hlen & Hk).
    { intros j Hj. apply Hin. apply elem_of_app. by left. }
    destruct (lookup_lt_is_Some_2 t i) as [x Hx].
    { apply Hin. apply elem_of_app. right. by left. }
    exists (ret ++ [x]). rewrite filter_snoc, Hret, Hx.
    split; [done|]. split; [rewrite !length_app; cbn; lia|].
    intros k j Hj.
    destruct (decide (k < length ix)%nat) as [Hlt|Hge].
    + rewrite lookup_app_l in Hj by done. rewrite lookup_app_l by lia. eauto.
    + pose proof (lookup_lt_Some _ _ _ Hj) as Hk'.
      rewrite length_app in Hk'. cbn in Hk'.
      assert (k = length ix) as -> by lia.
      rewrite lookup_app_r, Nat.sub_diag in Hj by lia.
      injection Hj as <-.
      by rewrite lookup_app_r, Hlen, Nat.sub_diag by lia.
Qed.

End filter.

(** C9. For every column [t] and every sequence [ix] of indices, each
    below the size of [t]: [filter] returns a column of the size of [ix]
    that has [t[ix[k]]] at every position [k]; for the empty [ix] it is
    empty. *)
Theorem filter_picks_rows {T : Type} (t : list T) (ix : list nat) :
  (∀ i, i ∈ ix → (i < length t)%nat) →
  (∃ ret,
     utility.filter t ix = Some ret
     ∧ length ret = length ix
     ∧ ∀ (k i : nat), ix !! k = Some i → ret !! k = t !! i)
  ∧ utility.filter t [] = Some [].
Proof. intros Hin. split; [by apply filter_in_range|done]. Qed.

(** The specification's scenario 5. *)
Lemma filter_picks_rows_witness :
  (∃ ret,
     utility.filter ["a"; "b"; "c"] [2; 0]%nat = Some ret
     ∧ length ret = 2%nat
     ∧ ∀ (k i : nat),
         [2; 0]%nat !! k = Some i → ret !! k = ["a"; "b"; "c"] !! i)
  ∧ utility.filter ["a"; "b"; "c"] [] = Some [].
Proof.
  apply (filter_picks_rows ["a"; "b"; "c"] [2; 0]%nat).
  intros i Hi. apply list_elem_of_In in Hi. cbn in *.
  destruct Hi as [<-|[<-|[]]]; lia.
Defined.

Example filter_scenario :
  utility.filter ["a"; "b"; "c"] [2; 0]%nat = Some ["c"; "a"].
Proof. reflexivity. Qed.

(** * Further properties *)

(** ** Interning: what the table holds, and the order of the codes *)

Section intern_more.
Context (w : Z).

Lemma intern_all_codes_length l (table : gmap string Z) :
  length (intern_all w l table).1 = length l.
Proof.
  revert table. induction l as [|s l IH]; intros table; [done|].
  rewrite intern_all_cons. cbn. by rewrite IH.
Qed.

Lemma intern_all_app l1 l2 (table : gmap string Z) :
  intern_all w (l1 ++ l2) table =
    ((intern_all w l1 table).1
       ++ (intern_all w l2 (intern_all w l1 table).2).1,
     (intern_all w l2 (intern_all w l1 table).2).2).
Proof.
  revert table. induction l1 as [|s l1 IH]; intros table.
  - cbn. by destruct (intern_all w l2 table).
  - rewrite <-app_comm_cons, !intern_all_cons, IH. done.
Qed.

(** The strings of the table are those it had and the one interned. *)
Lemma intern_None s s' (table : gmap string Z) :
  (intern w s table).2 !! s' = None ↔ table !! s' = None ∧ s' ≠ s.
Proof.
  destruct (table !! s) as [c|] eqn:Hs.
  - rewrite (intern_hit _ _ _ _ Hs). cbn. split; [|by intros []].
    intros Hs'. split; [done|]. congruence.
  - rewrite (intern_miss _ _ _ Hs). cbn.
    rewrite lookup_insert_None. split; intros [? ?]; by split.
Qed.

Lemma intern_all_None l s (table : gmap string Z) :
  (intern_all w l table).2 !! s = None ↔ table !! s = None ∧ s ∉ l.
Proof.
  revert table. induction l as [|s' l IH]; intros table.
  - cbn. split; [|by intros []]. intros ?. split; [done|]. by intros ?%elem_of_nil.
  - rewrite intern_all_cons. cbn. rewrite IH, intern_None, not_elem_of_cons.
    tauto.
Qed.

Lemma intern_size_le s (table : gmap string Z) :
  (size table ≤ size (intern w s table).2)%nat.
Proof.
  destruct (table !! s) as [c|] eqn:Hs.
  - by rewrite (intern_hit _ _ _ _ Hs).
  - rewrite (intern_miss _ _ _ Hs). cbn.
    rewrite map_size_insert_None by done. lia.
Qed.

Lemma intern_all_size_le l (table : gmap string Z) :
  (size table ≤ size (intern_all w l table).2)%nat.
Proof.
  revert table. induction l as [|s l IH]; intros table; [done|].
  rewrite intern_all_cons. cbn.
  etrans; [apply (intern_size_le s)|apply IH].
Qed.

(** A string seen for the first time gets a code above those of all the
    symbols built before, as long as the codes do not wrap around. *)
Lemma intern_all_first_seen_greater l1 sj l2 order (table : gmap string Z)
    (i : nat) ci cj :
  first_seen w order table →
  Z.of_nat (size (intern_all w (l1 ++ sj :: l2) table).2) < 2 ^ w →
  (i < length l1)%nat → sj ∉ l1 → table !! sj = None →
  (intern_all w (l1 ++ sj :: l2) table).1 !! i = Some ci →
  (intern_all w (l1 ++ sj :: l2) table).1 !! length l1 = Some cj →
  ci < cj.
Proof.
  intros Hfs Hw Hi Hfresh Hnone.
  rewrite intern_all_app, intern_all_cons in Hw |- *. cbn in Hw |- *.
  set (t1 := (intern_all w l1 table).2) in *.
  pose proof (intern_all_codes_length l1 table) as Hlen1.
  rewrite lookup_app_l by lia.
  rewrite lookup_app_r, Hlen1, Nat.sub_diag by lia. cbn.
  intros Hci [= <-].
  assert (t1 !! sj = None) as Hsj by by apply intern_all_None.
  pose proof (intern_all_size_le l2 (intern w sj t1).2) as Hle.
  rewrite (intern_miss _ _ _ Hsj) in Hw, Hle |- *. cbn in Hw, Hle |- *.
  rewrite map_size_insert_None in Hle by done.
  unfold to_Int. rewrite Z.mod_small by lia.
  destruct (lookup_lt_is_Some_2 l1 i Hi) as [si Hsi].
  pose proof (intern_all_lookup w l1 table i si ci Hsi Hci) as Hfinal.
  destruct (intern_all_first_seen w l1 order table Hfs) as [order1 Hfs1].
  fold t1 in Hfinal, Hfs1.
  pose proof (first_seen_code_range w order1 t1 si ci Hfs1 ltac:(lia) Hfinal).
  lia.
Qed.

End intern_more.

(** X1. A symbol built under one tag leaves the table of every other tag,
    and that of the same tag with an [Int] of another width, as it was, so
    the symbols and the tables are the same whichever of the two is served
    first. *)
Theorem Symbol_string_tags_independent (tag tag' : string) (w w' : Z)
    (s s' : string) (statics : gmap (string * Z) (gmap string Z)) :
  (tag', w') ≠ (tag, w) →
  let a := Symbol_string tag w s statics in
  let a' := Symbol_string tag' w' s' statics in
  intern_table tag' w' a.2 = intern_table tag' w' statics
  ∧ (Symbol_string tag' w' s' a.2).1 = a'.1
  ∧ (Symbol_string tag w s a'.2).1 = a.1
  ∧ (Symbol_string tag' w' s' a.2).2 = (Symbol_string tag w s a'.2).2.
Proof.
  intros Hne a a'. subst a a'.
  assert (∀ t u v st,
            (t, u) ≠ (tag, w) →
            intern_table t u (<[(tag, w) := v]> st) = intern_table t u st)
    as Hother.
  { intros t u v st Htu. unfold intern_table.
    by rewrite lookup_insert_ne. }
  assert (∀ t u v st,
            (t, u) ≠ (tag', w') →
            intern_table t u (<[(tag', w') := v]> st) = intern_table t u st)
    as Hother'.
  { intros t u v st Htu. unfold intern_table.
    by rewrite lookup_insert_ne. }
  rewrite !Symbol_string_unfold. cbn.
  rewrite Hother by done. rewrite Hother' by done.
  split; [done|]. split; [done|]. split; [done|].
  by apply insert_insert_ne.
Qed.

Lemma Symbol_string_tags_independent_witness :
  let a := Symbol_string "Color" 16 "red" ∅ in
  let a' := Symbol_string "Shape" 16 "round" ∅ in
  intern_table "Shape" 16 a.2 = intern_table "Shape" 16 ∅
  ∧ (Symbol_string "Shape" 16 "round" a.2).1 = a'.1
  ∧ (Symbol_string "Color" 16 "red" a'.2).1 = a.1
  ∧ (Symbol_string "Shape" 16 "round" a.2).2
      = (Symbol_string "Color" 16 "red" a'.2).2.
Proof.
  apply (Symbol_string_tags_independent "Color" "Shape" 16 16 "red" "round" ∅).
  discriminate.
Defined.

(** X2. Once a symbol was built from a string, whatever strings are
    interned under the tag afterwards, however many, a symbol built from
    the same string is the same symbol, and building it changes nothing. *)
Theorem Symbol_string_code_stable (tag : string) (w : Z) (s : string)
    (l : list string) (statics : gmap (string * Z) (gmap string Z)) :
  let first := Symbol_string tag w s statics in
  let later := Symbol_strings tag w l first.2 in
  Symbol_string tag w s later.2 = (first.1, later.2).
Proof.
  intros first later.
  assert (intern_table tag w later.2 !! s = Some (val first.1)) as Hs.
  { subst later.
    destruct (Symbol_strings_intern_all tag w l first.2) as [_ ->].
    apply intern_all_preserves. subst first.
    rewrite Symbol_string_table, Symbol_string_unfold. cbn.
    apply intern_lookup. }
  rewrite (Symbol_string_hit _ _ _ _ _ Hs). by destruct first.1.
Qed.

(** X3. The order of the symbols is the order in which their strings were
    first seen: starting with the tag's table empty and as long as it ends
    with fewer than [2 ^ w] strings, the symbol built from a string not
    seen before compares greater than every symbol built before it. *)
Theorem Symbol_compare_first_seen (tag : string) (w : Z) (l : list string)
    (statics : gmap (string * Z) (gmap string Z)) :
  intern_table tag w statics = ∅ →
  let r := Symbol_strings tag w l statics in
  Z.of_nat (size (intern_table tag w r.2)) < 2 ^ w →
  ∀ (i j : nat) sj xi xj,
    (i < j)%nat → l !! j = Some sj → sj ∉ take j l →
    r.1 !! i = Some xi → r.1 !! j = Some xj →
    Symbol_compare xi xj = Lt.
Proof.
  intros He r Hw i j sj xi xj Hij Hj Hfresh Hxi Hxj.
  destruct (Symbol_strings_intern_all tag w l statics) as [Hc Ht].
  fold r in Hc, Ht. rewrite Ht, He in Hw. rewrite He in Hc.
  assert ((intern_all w l ∅).1 !! i = Some (val xi)) as Hci
    by by rewrite <-Hc, list_lookup_fmap, Hxi.
  assert ((intern_all w l ∅).1 !! j = Some (val xj)) as Hcj
    by by rewrite <-Hc, list_lookup_fmap, Hxj.
  pose proof (lookup_lt_Some _ _ _ Hj) as Hjl.
  assert (length (take j l) = j) as Hlen by (rewrite length_take; lia).
  remember (intern_all w l ∅) as res eqn:Hres.
  rewrite <-(take_drop_middle l j sj Hj) in Hres. subst res.
  unfold Symbol_compare. apply Z.compare_lt_iff.
  apply (intern_all_first_seen_greater w (take j l) sj (drop (S j) l) [] ∅ i);
    [apply first_seen_empty|done|lia|done|apply lookup_empty|done|].
  by rewrite Hlen.
Qed.

(** The symbol of ["blue"], first seen after ["red"], is the greater, in
    spite of the alphabet. *)
Lemma Symbol_compare_first_seen_witness :
  Symbol_compare {| val := 1 |} {| val := 2 |} = Lt.
Proof.
  apply (Symbol_compare_first_seen "Color" 16 ["red"; "blue"; "red"] ∅
           (intern_table_empty _ _) ltac:(vm_compute; reflexivity)
           0%nat 1%nat "blue");
    [lia|reflexivity| |reflexivity|reflexivity].
  cbn. intros Hin%list_elem_of_In. cbn in Hin. destruct Hin as [?|[]].
  discriminate.
Defined.

(** X4. Starting with the tag's table empty, after symbols were built from
    the strings of [l] the table holds exactly those strings, one entry for
    each distinct one; and as long as these are fewer than [2 ^ w], every
    number from 1 to the size of the table is the code of exactly one
    string. *)
Theorem Symbol_strings_table_contents (tag : string) (w : Z)
    (l : list string) (statics : gmap (string * Z) (gmap string Z)) :
  intern_table tag w statics = ∅ →
  let table := intern_table tag w (Symbol_strings tag w l statics).2 in
  (∀ s, is_Some (table !! s) ↔ s ∈ l)
  ∧ size table = size (list_to_set l : gset string)
  ∧ (Z.of_nat (size table) < 2 ^ w →
     ∀ k, 1 ≤ k ≤ Z.of_nat (size table) →
          ∃ s, table !! s = Some k ∧ ∀ s', table !! s' = Some k → s' = s).
Proof.
  intros He table.
  assert (∀ s, is_Some (table !! s) ↔ s ∈ l) as Hdom.
  { intros s. subst table.
    destruct (Symbol_strings_intern_all tag w l statics) as [_ ->].
    rewrite He, <-not_eq_None_Some, intern_all_None, lookup_empty.
    split; [|tauto].
    intros Hn. destruct (decide (s ∈ l)); [done|]. tauto. }
  split; [done|]. split.
  - rewrite <-size_dom. f_equal. apply set_eq. intros s.
    by rewrite elem_of_dom, elem_of_list_to_set.
  - intros Hw k Hk.
    destruct (Symbol_strings_first_seen tag w l statics He) as [order Hfs].
    fold table in Hfs. pose proof Hfs as (_ & Hsz & Hl).
    destruct (lookup_lt_is_Some_2 order (Z.to_nat (k - 1))) as [s Hs];
      [lia|].
    exists s.
    assert (table !! s = Some k) as Hk'.
    { apply Hl. exists (Z.to_nat (k - 1)). split; [done|].
      unfold to_Int. rewrite Z.mod_small; lia. }
    split; [done|]. intros s' Hs'. by eapply first_seen_inj.
Qed.

Lemma Symbol_strings_table_contents_witness :
  let table :=
    intern_table "Color" 16
      (Symbol_strings "Color" 16 ["red"; "blue"; "red"] ∅).2 in
  (∀ s, is_Some (table !! s) ↔ s ∈ ["red"; "blue"; "red"])
  ∧ size table = size (list_to_set ["red"; "blue"; "red"] : gset string)
  ∧ (Z.of_nat (size table) < 2 ^ 16 →
     ∀ k, 1 ≤ k ≤ Z.of_nat (size table) →
          ∃ s, table !! s = Some k ∧ ∀ s', table !! s' = Some k → s' = s).
Proof.
  exact (Symbol_strings_table_contents "Color" 16 ["red"; "blue"; "red"] ∅
           (intern_table_empty _ _)).
Defined.

(** ** [std::unique] *)

Lemma unique_from_cons (x y : nat) l :
  unique_from x (y :: l) =
    (if bool_decide (x = y) then [] else [y]) ++ unique_from y l.
Proof. cbn. case_bool_decide; [by subst|done]. Qed.

Lemma unique_from_snoc (y : nat) l (x : nat) :
  unique_from y (l ++ [x]) =
    if bool_decide (last (y :: l) = Some x) then unique_from y l
    else unique_from y l ++ [x].
Proof.
  revert y. induction l as [|z l IH]; intros y.
  - cbn. repeat case_bool_decide; congruence.
  - rewrite <-app_comm_cons, !unique_from_cons, IH.
    change (last (y :: z :: l)) with (last (z :: l)).
    destruct (bool_decide (last (z :: l) = Some x)); [done|].
    by rewrite (assoc_L (++)).
Qed.

(** Taken from the back: an element is kept when it differs from the one
    before it. *)
Lemma unique_snoc l (x : nat) :
  unique (l ++ [x]) =
    if bool_decide (last l = Some x) then unique l else unique l ++ [x].
Proof.
  destruct l as [|y l]; [done|]. cbn -[last]. rewrite unique_from_snoc.
  by case_bool_decide.
Qed.

Lemma unique_from_elem_of (x : nat) l z :
  z ∈ x :: unique_from x l ↔ z ∈ x :: l.
Proof.
  revert x. induction l as [|y l IH]; intros x; [done|].
  cbn. case_bool_decide as Hxy.
  - subst y. rewrite IH. rewrite !elem_of_cons. tauto.
  - rewrite (elem_of_cons (y :: unique_from y l)), IH.
    rewrite (elem_of_cons (y :: l)). done.
Qed.

Lemma unique_elem_of l (z : nat) : z ∈ unique l ↔ z ∈ l.
Proof. destruct l as [|x l]; [done|]. apply unique_from_elem_of. Qed.

Lemma unique_from_sorted (R : relation nat) (x : nat) l :
  StronglySorted R (x :: l) → StronglySorted R (x :: unique_from x l).
Proof.
  revert x. induction l as [|y l IH]; intros x Hs; [done|].
  apply StronglySorted_inv in Hs as [Hs Hx]. cbn. case_bool_decide as Hxy.
  - subst y. by apply IH.
  - constructor; [by apply IH|].
    apply Forall_forall. intros z Hz.
    apply (proj1 (unique_from_elem_of _ _ _)) in Hz.
    rewrite Forall_forall in Hx. by apply Hx.
Qed.

Lemma unique_sorted (R : relation nat) l :
  StronglySorted R l → StronglySorted R (unique l).
Proof. destruct l as [|x l]; [done|]. apply unique_from_sorted. Qed.

Lemma unique_from_adjacent (x : nat) l (i : nat) y z :
  (x :: unique_from x l) !! i = Some y →
  (x :: unique_from x l) !! S i = Some z → y ≠ z.
Proof.
  revert x i. induction l as [|x' l IH]; intros x i; [done|].
  cbn [unique_from]. case_bool_decide as Hxy.
  - apply IH.
  - destruct i as [|i]; cbn.
    + intros [= <-] [= <-]. done.
    + apply (IH x' i).
Qed.

Section unique_keys.
Context {K : Type} `{!Key K} (vals : nat → K).

(** Where the keys do not descend and different elements have different
    keys, the keys of what [std::unique] leaves ascend strictly. *)
Lemma unique_from_strict (x : nat) l :
  StronglySorted (λ a a', ¬ key_lt (vals a') (vals a)) (x :: l) →
  (∀ a a', a ∈ x :: l → a' ∈ x :: l → vals a = vals a' → a = a') →
  StronglySorted (λ a a', key_lt (vals a) (vals a')) (x :: unique_from x l).
Proof.
  revert x. induction l as [|y l IH]; intros x Hs Hinj.
  - cbn. by repeat constructor.
  - apply StronglySorted_inv in Hs as [Hs Hx]. cbn. case_bool_decide as Hxy.
    + subst y. apply IH; [done|].
      intros a a' Ha Ha'. apply Hinj; by right.
    + constructor.
      * apply IH; [done|]. intros a a' Ha Ha'. apply Hinj; by right.
      * apply Forall_forall. intros z Hz.
        apply (proj1 (unique_from_elem_of _ _ _)) in Hz.
        pose proof (proj1 (Forall_forall _ _) Hx z Hz) as Hxz. cbn in Hxz.
        pose proof (proj1 (Forall_forall _ _) Hx y ltac:(left)) as Hxy'.
        cbn in Hxy'.
        destruct (trichotomy key_lt (vals x) (vals z)) as [?|[Heq|?]];
          [done| |done].
        assert (x = z) as <- by (apply Hinj; [left|by right|done]).
        exfalso. apply Hxy.
        apply Hinj; [left|right; left|].
        assert (¬ key_lt (vals x) (vals y)) as Hyx.
        { apply elem_of_cons in Hz as [->|Hz]; [done|].
          apply StronglySorted_inv in Hs as [_ Hy].
          rewrite Forall_forall in Hy. by apply Hy. }
        by destruct (trichotomy key_lt (vals x) (vals y)) as [?|[?|?]].
Qed.

Lemma unique_strict l :
  StronglySorted (λ a a', ¬ key_lt (vals a') (vals a)) l →
  (∀ a a', a ∈ l → a' ∈ l → vals a = vals a' → a = a') →
  StronglySorted (λ a a', key_lt (vals a) (vals a')) (unique l).
Proof.
  destruct l as [|x l]; [constructor|]. apply unique_from_strict.
Qed.

End unique_keys.

(** ** [merge]: the ranges are the runs of [group_start] *)

(** The loop of [merge] over the positions below [m], with what it keeps:
    from [prev_i] on, [group_start] is constant; each range handed over is
    a run of one value of [group_start], its [group_head], that ends
    where the value changes; and the heads, with the value at [prev_i],
    are what [std::unique] keeps of the first [m] elements. *)
Lemma merge_loop_runs this (m : nat) :
  (m ≤ length (group_start this))%nat →
  ∃ (prev_i : nat) (rs : list range_t),
    (∀ (U : Type) (f : range_t → U → U) (u : U),
       foldl (merge_step f) (this, 0%nat, u) (seq 0 m)
         = (this, prev_i, foldl (λ u r, f r u) u rs))
    ∧ (prev_i ≤ m)%nat ∧ ((0 < m)%nat → (prev_i < m)%nat)
    ∧ (m = 0%nat → rs = [])
    ∧ (∀ i, (prev_i ≤ i < m)%nat →
            group_start this !!! i = group_start this !!! prev_i)
    ∧ Forall (λ r,
                (e r < m)%nat
                ∧ (∀ i, (b r ≤ i < e r)%nat →
                        group_start this !!! i = group_head r)
                ∧ group_start this !!! e r ≠ group_head r) rs
    ∧ ((0 < m)%nat →
       (group_head <$> rs) ++ [group_start this !!! prev_i]
         = unique (take m (group_start this))).
Proof.
  induction m as [|m IH]; intros Hm.
  - exists 0%nat, []. cbn. repeat split; try done; lia.
  - destruct IH as (p & rs & Hf & Hle & Hlt & Hnil & Hrun & Hrs & Hu); [lia|].
    destruct (lookup_lt_is_Some_2 (group_start this) m ltac:(lia)) as [x Hx].
    pose proof (list_lookup_total_correct _ _ _ Hx) as Hx'.
    assert ((0 < m)%nat → last (take m (group_start this))
                           = Some (group_start this !!! p)) as Hlast.
    { intros Hpos. rewrite last_lookup, length_take, Nat.min_l by lia.
      rewrite lookup_take_lt by lia.
      rewrite (list_lookup_lookup_total_lt _ (pred m)) by lia.
      f_equal. apply Hrun. lia. }
    destruct (decide (group_start this !!! m = group_start this !!! p))
      as [Heq|Hne].
    + exists p, rs.
      split; [|split; [lia|split; [lia|split; [lia|split; [|split]]]]].
      * intros U f u. rewrite seq_S, foldl_snoc, Hf. cbn.
        rewrite bool_decide_false; [done|]. by intros ?.
      * intros i Hi. destruct (decide (i = m)) as [->|]; [done|].
        apply Hrun. lia.
      * eapply Forall_impl; [exact Hrs|]. cbn. intros r (? & ? & ?).
        split; [lia|done].
      * intros _. rewrite (take_S_r _ _ _ Hx), unique_snoc.
        destruct m as [|m].
        -- rewrite Hnil by done. assert (p = 0)%nat as -> by lia.
           cbn. by rewrite Hx'.
        -- rewrite Hlast by lia. rewrite bool_decide_true by congruence.
           apply Hu. lia.
    + assert (p < m)%nat as Hpm.
      { destruct (decide (p = m)) as [->|]; [done|lia]. }
      exists m, (rs ++ [{| group_head := group_start this !!! p;
                          b := p; e := m |}]).
      split; [|split; [lia|split; [lia|split; [lia|split; [|split]]]]].
      * intros U f u. rewrite seq_S, !foldl_snoc, Hf. cbn.
        by rewrite bool_decide_true.
      * intros i Hi. by replace i with m by lia.
      * apply Forall_app_2.
        -- eapply Forall_impl; [exact Hrs|]. cbn. intros r (? & ? & ?).
           split; [lia|done].
        -- apply Forall_singleton. cbn. split; [lia|]. split; [|done].
           intros i Hi. apply Hrun. lia.
      * intros _. rewrite (take_S_r _ _ _ Hx), unique_snoc, Hlast by lia.
        rewrite bool_decide_false by congruence.
        rewrite <-Hu by lia. rewrite fmap_app. cbn. by rewrite Hx'.
Qed.

(** The ranges [merge] hands over, read off the loop: every one is a run of
    its [group_head] in [group_start] that ends where the value changes or
    at the end, and the heads are what [indexes] returns. *)
Lemma ranges_runs this :
  length (group_start this) = length (ix this) →
  (∀ (k : nat) r,
     ranges this !! k = Some r →
     (e r ≤ length (ix this))%nat
     ∧ (∀ i, (b r ≤ i < e r)%nat →
             group_start this !! i = Some (group_head r))
     ∧ ((e r < length (ix this))%nat →
        group_start this !! e r ≠ Some (group_head r)))
  ∧ group_head <$> ranges this = indexes this.
Proof.
  intros Hlen.
  destruct (merge_loop_runs this (length (ix this)) ltac:(lia))
    as (p & rs & Hf & Hle & Hlt & Hnil & Hrun & Hrs & Hu).
  assert (ranges this =
            if bool_decide (0 < length (group_start this))%nat
            then rs ++ [{| group_head := group_start this !!! p;
                           b := p; e := length (ix this) |}]
            else rs) as Hranges.
  { unfold ranges.
    rewrite (merge_unfold _ _ _ _ _ _ (Hf _ (λ r rs, rs ++ [r]) [])). cbn.
    rewrite foldl_snoc_all. cbn. by case_bool_decide. }
  assert (∀ i x, (i < length (ix this))%nat →
                 group_start this !!! i = x → group_start this !! i = Some x)
    as Htotal.
  { intros i x Hi <-. apply list_lookup_lookup_total_lt. lia. }
  rewrite Hranges. case_bool_decide as Hpos.
  - split.
    + intros k r [Hr|[_ Hr]]%lookup_app_Some.
      * rewrite Forall_forall in Hrs.
        destruct (Hrs r) as (He & Hin & Hend);
          [by eapply list_elem_of_lookup_2|].
        split; [lia|]. split.
        -- intros i Hi. apply Htotal; [lia|]. by apply Hin.
        -- intros _ Heq. apply Hend.
           by apply list_lookup_total_correct.
      * apply list_lookup_singleton_Some in Hr as [_ <-]. cbn.
        split; [done|]. split; [|lia].
        intros i Hi. apply Htotal; [lia|]. by apply Hrun.
    + rewrite fmap_app. cbn. rewrite Hu by lia.
      unfold indexes. by rewrite <-Hlen, firstn_all.
  - assert (length (ix this) = 0)%nat as Hz by lia.
    rewrite (Hnil Hz). split; [done|].
    unfold indexes. apply nil_length_inv in Hz.
    assert (group_start this = []) as -> by (apply nil_length_inv; lia).
    done.
Qed.

(** ** The constructor's second loop, whatever [prev_i] starts as *)

Lemma StronglySorted_from_lookup {A} (R : relation A) l :
  (∀ (i j : nat) x y, (i < j)%nat → l !! i = Some x → l !! j = Some y →
                      R x y) →
  StronglySorted R l.
Proof.
  induction l as [|x l IH]; intros HR; [constructor|].
  constructor.
  - apply IH. intros i j y z Hij Hi Hj. apply (HR (S i) (S j)); [lia|done..].
  - apply Forall_forall. intros y [j Hj]%list_elem_of_lookup.
    apply (HR 0%nat (S j)); [lia|done..].
Qed.

Section group_start_keys.
Context {K : Type} `{!Key K} (vals : nat → K) (l : list nat).

(** After the rounds for the positions [1 .. m]: [prev_i] is a position of
    [l], and [group_start] holds, at every position up to [m], a row of [l]
    that has the key of the row at that position; what it held at position
    0 is still there. *)
Lemma group_start_loop_keys (prev_i : nat) (gs0 : list nat) (m : nat) :
  (prev_i < length l)%nat → (S m ≤ length l)%nat →
  length gs0 = length l → gs0 !! 0%nat = Some (l !!! 0%nat) →
  let st := foldl (group_start_step vals l) (prev_i, gs0) (seq 1 m) in
  (st.1 < length l)%nat
  ∧ length st.2 = length l
  ∧ st.2 !! 0%nat = Some (l !!! 0%nat)
  ∧ ∀ i, (i ≤ m)%nat →
         ∃ q, (q < length l)%nat ∧ st.2 !! i = Some (l !!! q)
              ∧ vals (l !!! q) = vals (l !!! i).
Proof.
  intros Hp Hm Hlen H0. induction m as [|m IH].
  - cbn. split; [done|]. split; [done|]. split; [done|].
    intros i Hi. assert (i = 0)%nat as -> by lia. exists 0%nat.
    split; [lia|]. done.
  - destruct IH as (Hp' & Hl & H0' & Hgs); [lia|].
    rewrite seq_S, foldl_snoc. cbn [plus].
    set (st := foldl (group_start_step vals l) (prev_i, gs0) (seq 1 m)) in *.
    unfold group_start_step at 1 2 3 4. cbn [fst snd].
    set (p' := if bool_decide (vals (l !!! st.1) ≠ vals (l !!! S m))
               then S m else st.1).
    assert ((p' < length l)%nat ∧ vals (l !!! p') = vals (l !!! S m))
      as [Hp'' Hv].
    { subst p'. case_bool_decide as Hne; [split; [lia|done]|].
      split; [done|]. by destruct (decide (vals (l !!! st.1)
                                           = vals (l !!! S m))). }
    split; [done|]. split; [by rewrite length_insert|].
    split; [by rewrite list_lookup_insert_ne|].
    intros i Hi. destruct (decide (i = S m)) as [->|Hne].
    + exists p'. rewrite list_lookup_insert_eq by lia. done.
    + rewrite list_lookup_insert_ne by done. apply Hgs. lia.
Qed.

End group_start_keys.

Section Index_keys.
Context {K : Type} `{!Key K} (w : Z).
Context (sort : (nat → nat → bool) → list nat → list nat).
Context (Hsort : std_sort_contract sort).
Implicit Types vals : nat → K.

Lemma Index_ctor_first_row (n : nat) vals this :
  Index_ctor w sort n vals = Some this → ix this ≠ [] →
  (ix this !!! 0%nat < length (ix this))%nat.
Proof.
  intros Hthis Hne.
  pose proof (Index_ctor_lengths w sort Hsort _ _ _ Hthis) as [Hlen _].
  pose proof (Index_ctor_Permutation w sort Hsort _ _ _ Hthis) as Hp.
  destruct (ix this) as [|row rows] eqn:Hix; [done|]. cbn.
  assert (row ∈ seq 0 n) as Hin%elem_of_seq by (rewrite <-Hp; left).
  cbn in Hlen. lia.
Qed.

(** What the second loop leaves in [group_start], and that it stays within
    [ix]. *)
Lemma Index_ctor_group_start_keys (n : nat) vals this :
  Index_ctor w sort n vals = Some this →
  group_start this !! 0%nat = ix this !! 0%nat
  ∧ (∀ (i : nat) gi,
       group_start this !! i = Some gi →
       ∃ (q : nat) ri,
         ix this !! q = Some gi ∧ ix this !! i = Some ri
         ∧ vals gi = vals ri)
  ∧ (∀ m, (S m ≤ n)%nat →
          ((foldl (group_start_step vals (ix this))
              (ix this !!! 0%nat,
               <[0%nat := ix this !!! 0%nat]> (replicate n 0%nat))
              (seq 1 m)).1 < length (ix this))%nat).
Proof.
  intros Hthis.
  pose proof (Index_ctor_lengths w sort Hsort _ _ _ Hthis) as [Hlen Hlen'].
  destruct (decide (ix this = [])) as [Hnil|Hne].
  { assert (n = 0)%nat as -> by by rewrite <-Hlen, Hnil.
    apply nil_length_inv in Hlen'. rewrite Hnil, Hlen'.
    split; [done|]. split; [done|]. intros m Hm. lia. }
  pose proof (Index_ctor_first_row _ _ _ Hthis Hne) as Hfirst.
  pose proof (Index_ctor_group_start w sort Hsort _ _ _ Hthis Hne) as Hgs.
  assert (0 < n)%nat as Hn by lia.
  assert (∀ m, (S m ≤ n)%nat →
            let st := foldl (group_start_step vals (ix this))
                        (ix this !!! 0%nat,
                         <[0%nat := ix this !!! 0%nat]> (replicate n 0%nat))
                        (seq 1 m) in
            (st.1 < length (ix this))%nat
            ∧ length st.2 = length (ix this)
            ∧ st.2 !! 0%nat = Some (ix this !!! 0%nat)
            ∧ ∀ i, (i ≤ m)%nat →
                   ∃ q, (q < length (ix this))%nat
                        ∧ st.2 !! i = Some (ix this !!! q)
                        ∧ vals (ix this !!! q) = vals (ix this !!! i))
    as Hloop.
  { intros m Hm. apply group_start_loop_keys; [done|lia| |].
    - by rewrite length_insert, length_replicate.
    - apply list_lookup_insert_eq. rewrite length_replicate. lia. }
  destruct (Hloop (length (ix this) - 1)%nat ltac:(lia))
    as (_ & _ & H0 & Hall).
  rewrite <-Hgs in H0, Hall.
  split; [|split].
  - rewrite H0. symmetry. apply list_lookup_lookup_total_lt. lia.
  - intros i gi Hgi. pose proof (lookup_lt_Some _ _ _ Hgi) as Hi.
    destruct (Hall i ltac:(lia)) as (q & Hq & Hgi' & Hv).
    rewrite Hgi in Hgi'. injection Hgi' as ->.
    exists q, (ix this !!! i).
    split; [by apply list_lookup_lookup_total_lt|].
    split; [apply list_lookup_lookup_total_lt; lia|done].
  - intros m Hm. by destruct (Hloop m Hm) as (? & _).
Qed.

(** The keys along [group_start] do not descend. *)
Lemma Index_ctor_group_start_sorted (n : nat) vals this :
  Index_ctor w sort n vals = Some this →
  StronglySorted (λ a a', ¬ key_lt (vals a') (vals a)) (group_start this).
Proof.
  intros Hthis.
  destruct (Index_ctor_group_start_keys _ _ _ Hthis) as (_ & Hkeys & _).
  pose proof (Index_ctor_sorted w sort Hsort _ _ _ Hthis) as Hsorted.
  apply StronglySorted_from_lookup. intros i j gi gj Hij Hgi Hgj.
  destruct (Hkeys _ _ Hgi) as (qi & ri & _ & Hri & ->).
  destruct (Hkeys _ _ Hgj) as (qj & rj & _ & Hrj & ->).
  apply by_vals_false.
  by apply (StronglySorted_lookup (λ x y, by_vals vals y x = false)
              (ix this) i j).
Qed.

(** The rows of a range are rows of [ix] at its positions. *)
Lemma range_rows_lookup this r row :
  row ∈ range_rows this r →
  ∃ i : nat, (b r ≤ i < e r)%nat ∧ ix this !! i = Some row.
Proof.
  unfold range_rows. intros [j Hj]%list_elem_of_lookup.
  apply lookup_take_Some in Hj as [Hj Hlt]. rewrite lookup_drop in Hj.
  exists (b r + j)%nat. split; [lia|done].
Qed.

Lemma Index_ctor_range_keys (n : nat) vals this (k : nat) r row :
  Index_ctor w sort n vals = Some this →
  ranges this !! k = Some r → row ∈ range_rows this r →
  vals row = vals (group_head r).
Proof.
  intros Hthis Hr (i & Hi & Hrow)%range_rows_lookup.
  pose proof (Index_ctor_lengths w sort Hsort _ _ _ Hthis) as [Hlen Hlen'].
  destruct (ranges_runs this ltac:(congruence)) as [Hruns _].
  destruct (Hruns k r Hr) as (_ & Hin & _).
  destruct (Index_ctor_group_start_keys _ _ _ Hthis) as (_ & Hkeys & _).
  destruct (Hkeys i _ (Hin i Hi)) as (q & ri & _ & Hri & ->). congruence.
Qed.

End Index_keys.

Section Index_row_0_first.
Context {K : Type} `{!Key K} (w : Z).
Context (sort : (nat → nat → bool) → list nat → list nat).
Context (Hsort : std_sort_contract sort).
Implicit Types vals : nat → K.

(** When row 0 has the least key, and no other row has it, the sorted rows
    begin with row 0. *)
Lemma Index_ctor_row_0_first (n : nat) vals this :
  Index_ctor w sort n vals = Some this → (0 < n)%nat →
  (∀ row, (0 < row < n)%nat → key_lt (vals 0%nat) (vals row)) →
  ix this !! 0%nat = Some 0%nat.
Proof.
  intros Hthis Hn Hleast.
  pose proof (Index_ctor_lengths w sort Hsort _ _ _ Hthis) as [Hlen _].
  pose proof (Index_ctor_Permutation w sort Hsort _ _ _ Hthis) as Hp.
  pose proof (Index_ctor_sorted w sort Hsort _ _ _ Hthis) as Hsorted.
  destruct (lookup_lt_is_Some_2 (ix this) 0%nat ltac:(lia)) as [r0 Hr0].
  destruct (decide (r0 = 0%nat)) as [->|Hne]; [done|]. exfalso.
  assert (r0 ∈ seq 0 n) as Hin%elem_of_seq.
  { rewrite <-Hp. by eapply list_elem_of_lookup_2. }
  assert (0%nat ∈ ix this) as [j Hj]%list_elem_of_lookup.
  { rewrite Hp. apply elem_of_seq. lia. }
  destruct j as [|j]; [congruence|].
  pose proof (StronglySorted_lookup _ _ 0 (S j) _ _ Hsorted ltac:(lia) Hr0 Hj)
    as Hle. cbn in Hle.
  apply by_vals_false in Hle. apply Hle, Hleast. lia.
Qed.

(** Then different entries of [group_start] have different keys. *)
Lemma Index_ctor_group_start_inj (n : nat) vals this a a' :
  Index_ctor w sort n vals = Some this → ix this !! 0%nat = Some 0%nat →
  a ∈ group_start this → a' ∈ group_start this →
  vals a = vals a' → a = a'.
Proof.
  intros Hthis H0 [i Hi]%list_elem_of_lookup [j Hj]%list_elem_of_lookup Heq.
  destruct (Index_ctor_group_start_keys w sort Hsort _ _ _ Hthis)
    as (_ & Hkeys & _).
  destruct (Hkeys _ _ Hi) as (qi & ri & _ & Hri & Hvi).
  destruct (Hkeys _ _ Hj) as (qj & rj & _ & Hrj & Hvj).
  destruct (Index_ctor_group_start_from_row_0 w sort Hsort _ _ _ Hthis H0
              i j ri rj a a' Hri Hrj Hi Hj) as [Hiff _].
  apply Hiff. congruence.
Qed.

Lemma Index_ctor_indexes_strict (n : nat) vals this :
  Index_ctor w sort n vals = Some this → ix this !! 0%nat = Some 0%nat →
  StronglySorted (λ a a', key_lt (vals a) (vals a')) (indexes this).
Proof.
  intros Hthis H0. apply unique_strict.
  - by apply (Index_ctor_group_start_sorted w sort Hsort n).
  - intros a a'. by apply (Index_ctor_group_start_inj n).
Qed.

(** Every row's key is the key of an entry of [indexes]. *)
Lemma Index_ctor_indexes_cover (n : nat) vals this row :
  Index_ctor w sort n vals = Some this → (row < n)%nat →
  ∃ r, r ∈ indexes this ∧ vals r = vals row.
Proof.
  intros Hthis Hrow.
  pose proof (Index_ctor_lengths w sort Hsort _ _ _ Hthis) as [Hlen Hlen'].
  pose proof (Index_ctor_Permutation w sort Hsort _ _ _ Hthis) as Hp.
  assert (row ∈ ix this) as [i Hi]%list_elem_of_lookup.
  { rewrite Hp. apply elem_of_seq. lia. }
  pose proof (lookup_lt_Some _ _ _ Hi) as Hlt.
  destruct (lookup_lt_is_Some_2 (group_start this) i ltac:(lia)) as [gi Hgi].
  destruct (Index_ctor_group_start_keys w sort Hsort _ _ _ Hthis)
    as (_ & Hkeys & _).
  destruct (Hkeys _ _ Hgi) as (q & ri & _ & Hri & Hv).
  exists gi. split; [|congruence].
  apply unique_elem_of. by eapply list_elem_of_lookup_2.
Qed.

Lemma Index_ctor_indexes_rows (n : nat) vals this r :
  Index_ctor w sort n vals = Some this → r ∈ indexes this →
  r ∈ ix this ∧ (r < n)%nat.
Proof.
  intros Hthis Hr. unfold indexes in Hr.
  apply (proj1 (unique_elem_of _ _)) in Hr.
  apply list_elem_of_lookup in Hr as [i Hi].
  pose proof (Index_ctor_Permutation w sort Hsort _ _ _ Hthis) as Hp.
  destruct (Index_ctor_group_start_keys w sort Hsort _ _ _ Hthis)
    as (_ & Hkeys & _).
  destruct (Hkeys _ _ Hi) as (q & ri & Hq & _).
  assert (r ∈ ix this) as Hin by by eapply list_elem_of_lookup_2.
  split; [done|]. rewrite Hp in Hin. apply elem_of_seq in Hin. lia.
Qed.

End Index_row_0_first.

(** ** Grouping: further properties *)

(** X5. Whatever the keys, and also where a group is split as in C1: of an
    index that was built, every entry of [group_start] is a row of [ix],
    below [n], with the key of the row at the same sorted position, and the
    first entry is the first sorted row. *)
Theorem group_start_rows_share_key {K : Type} `{!Key K} (w : Z)
    (sort : (nat → nat → bool) → list nat → list nat)
    (n : nat) (vals : nat → K) (this : Index) :
  std_sort_contract sort →
  Index_ctor w sort n vals = Some this →
  group_start this !! 0%nat = ix this !! 0%nat
  ∧ ∀ (i : nat) gi,
      group_start this !! i = Some gi →
      gi ∈ ix this ∧ (gi < n)%nat
      ∧ ∃ ri, ix this !! i = Some ri ∧ vals gi = vals ri.
Proof.
  intros Hsort Hthis.
  destruct (Index_ctor_group_start_keys w sort Hsort _ _ _ Hthis)
    as (H0 & Hkeys & _).
  split; [done|]. intros i gi Hgi.
  destruct (Hkeys _ _ Hgi) as (q & ri & Hq & Hri & Hv).
  assert (gi ∈ ix this) as Hin by by eapply list_elem_of_lookup_2.
  split; [done|]. split; [|by exists ri].
  rewrite (Index_ctor_Permutation w sort Hsort _ _ _ Hthis) in Hin.
  apply elem_of_seq in Hin. lia.
Qed.

Lemma group_start_rows_share_key_witness :
  let vals := vals_of [3; 1; 3; 2; 1]%nat in
  let this := {| ix := [1; 4; 3; 0; 2]%nat;
                 group_start := [1; 4; 3; 0; 0]%nat |} in
  group_start this !! 0%nat = ix this !! 0%nat
  ∧ ∀ (i : nat) gi,
      group_start this !! i = Some gi →
      gi ∈ ix this ∧ (gi < 5)%nat
      ∧ ∃ ri, ix this !! i = Some ri ∧ vals gi = vals ri.
Proof.
  exact (group_start_rows_share_key 32 insertion_sort 5
           (vals_of [3; 1; 3; 2; 1]%nat) _ insertion_sort_contract eq_refl).
Defined.

(** X6. In every round of the constructor's second loop [prev_i] is a
    position below [ix.size()], although it starts as a row id: the
    subscript [ix[prev_i]] never leaves [ix]. *)
Theorem Index_ctor_prev_i_in_range {K : Type} `{!Key K} (w : Z)
    (sort : (nat → nat → bool) → list nat → list nat)
    (n : nat) (vals : nat → K) (this : Index) :
  std_sort_contract sort →
  Index_ctor w sort n vals = Some this →
  ∀ m, (S m ≤ n)%nat →
       ((foldl (group_start_step vals (ix this))
           (ix this !!! 0%nat,
            <[0%nat := ix this !!! 0%nat]> (replicate n 0%nat))
           (seq 1 m)).1 < length (ix this))%nat.
Proof.
  intros Hsort Hthis.
  by destruct (Index_ctor_group_start_keys w sort Hsort _ _ _ Hthis)
    as (_ & _ & ?).
Qed.

Lemma Index_ctor_prev_i_in_range_witness :
  let vals := vals_of [3; 1; 3; 2; 1]%nat in
  let ix := [1; 4; 3; 0; 2]%nat in
  ((foldl (group_start_step vals ix)
      (ix !!! 0%nat, <[0%nat := ix !!! 0%nat]> (replicate 5 0%nat))
      (seq 1 4)).1 < length ix)%nat.
Proof.
  exact (Index_ctor_prev_i_in_range 32 insertion_sort 5
           (vals_of [3; 1; 3; 2; 1]%nat)
           {| ix := [1; 4; 3; 0; 2]%nat;
              group_start := [1; 4; 3; 0; 0]%nat |}
           insertion_sort_contract eq_refl 4%nat ltac:(lia)).
Defined.

(** X7. Whatever index [merge] is called on, [ix] and [group_start] being
    of one size: every range handed over lies within [ix]; [group_start] has
    the range's [group_head] at all its positions and another value right
    after it, unless the range ends [ix]; and two ranges handed over one
    after the other have different heads. *)
Theorem merge_ranges_are_runs (this : Index) :
  length (group_start this) = length (ix this) →
  (∀ (k : nat) r,
     ranges this !! k = Some r →
     (e r ≤ length (ix this))%nat
     ∧ (∀ i, (b r ≤ i < e r)%nat →
             group_start this !! i = Some (group_head r))
     ∧ ((e r < length (ix this))%nat →
        group_start this !! e r ≠ Some (group_head r)))
  ∧ (∀ (k : nat) r r',
       ranges this !! k = Some r → ranges this !! S k = Some r' →
       group_head r ≠ group_head r').
Proof.
  intros Hlen. destruct (ranges_runs this Hlen) as [Hruns Hheads].
  split; [done|]. intros k r r' Hr Hr'.
  assert ((group_head <$> ranges this) !! k = Some (group_head r)) as Hk
    by by rewrite list_lookup_fmap, Hr.
  assert ((group_head <$> ranges this) !! S k = Some (group_head r')) as Hk'
    by by rewrite list_lookup_fmap, Hr'.
  rewrite Hheads in Hk, Hk'. unfold indexes in Hk, Hk'.
  destruct (group_start this) as [|x l]; [done|].
  by eapply unique_from_adjacent.
Qed.

Lemma merge_ranges_are_runs_witness :
  let this := {| ix := [1; 4; 3; 0; 2]%nat;
                 group_start := [1; 4; 3; 0; 0]%nat |} in
  (∀ (k : nat) r,
     ranges this !! k = Some r →
     (e r ≤ length (ix this))%nat
     ∧ (∀ i, (b r ≤ i < e r)%nat →
             group_start this !! i = Some (group_head r))
     ∧ ((e r < length (ix this))%nat →
        group_start this !! e r ≠ Some (group_head r)))
  ∧ (∀ (k : nat) r r',
       ranges this !! k = Some r → ranges this !! S k = Some r' →
       group_head r ≠ group_head r').
Proof.
  exact (merge_ranges_are_runs
           {| ix := [1; 4; 3; 0; 2]%nat;
              group_start := [1; 4; 3; 0; 0]%nat |} eq_refl).
Defined.

(** X8. Whatever index they are called on, [ix] and [group_start] being of
    one size: the heads of the ranges [merge] hands over, in the order of
    the calls, are the rows [indexes] returns. *)
Theorem merge_heads_are_indexes (this : Index) :
  length (group_start this) = length (ix this) →
  group_head <$> ranges this = indexes this.
Proof. intros Hlen. by destruct (ranges_runs this Hlen) as [_ ?]. Qed.

Lemma merge_heads_are_indexes_witness :
  let this := {| ix := [1; 4; 3; 0; 2]%nat;
                 group_start := [1; 4; 3; 0; 0]%nat |} in
  group_head <$> ranges this = indexes this.
Proof.
  exact (merge_heads_are_indexes
           {| ix := [1; 4; 3; 0; 2]%nat;
              group_start := [1; 4; 3; 0; 0]%nat |} eq_refl).
Defined.

(** X9. Of an index that was built, whatever the keys: all the rows of a
    range [merge] hands over have the key of the range's [group_head],
    which is a row below [n]. A range never holds rows of two keys. *)
Theorem merge_ranges_share_key {K : Type} `{!Key K} (w : Z)
    (sort : (nat → nat → bool) → list nat → list nat)
    (n : nat) (vals : nat → K) (this : Index) :
  std_sort_contract sort →
  Index_ctor w sort n vals = Some this →
  ∀ (k : nat) r,
    ranges this !! k = Some r →
    (group_head r < n)%nat
    ∧ ∀ row, row ∈ range_rows this r → vals row = vals (group_head r).
Proof.
  intros Hsort Hthis k r Hr. split.
  - pose proof (Index_ctor_lengths w sort Hsort _ _ _ Hthis) as [Hlen Hlen'].
    destruct (ranges_runs this ltac:(congruence)) as [_ Hheads].
    apply (Index_ctor_indexes_rows w sort Hsort n vals this).
    + done.
    + rewrite <-Hheads. apply list_elem_of_fmap. exists r.
      split; [done|]. by eapply list_elem_of_lookup_2.
  - intros row Hrow. by eapply Index_ctor_range_keys.
Qed.

Lemma merge_ranges_share_key_witness :
  let vals := vals_of [3; 1; 3; 2; 1]%nat in
  let this := {| ix := [1; 4; 3; 0; 2]%nat;
                 group_start := [1; 4; 3; 0; 0]%nat |} in
  let r := {| group_head := 0; b := 3; e := 5 |} in
  (group_head r < 5)%nat
  ∧ ∀ row, row ∈ range_rows this r → vals row = vals (group_head r).
Proof.
  exact (merge_ranges_share_key 32 insertion_sort 5
           (vals_of [3; 1; 3; 2; 1]%nat)
           {| ix := [1; 4; 3; 0; 2]%nat;
              group_start := [1; 4; 3; 0; 0]%nat |}
           insertion_sort_contract eq_refl
           3%nat {| group_head := 0; b := 3; e := 5 |} eq_refl).
Defined.

(** X10. Of an index that was built, whatever the keys: [indexes] returns
    rows below [n] whose keys do not descend, no two neighbours the same
    row, and every row's key is the key of one of them. (With the defect of
    C1 a key may be there more than once.) *)
Theorem indexes_cover_keys {K : Type} `{!Key K} (w : Z)
    (sort : (nat → nat → bool) → list nat → list nat)
    (n : nat) (vals : nat → K) (this : Index) :
  std_sort_contract sort →
  Index_ctor w sort n vals = Some this →
  (∀ r, r ∈ indexes this → (r < n)%nat)
  ∧ StronglySorted (λ a a', ¬ key_lt (vals a') (vals a)) (indexes this)
  ∧ (∀ (i : nat) r r',
       indexes this !! i = Some r → indexes this !! S i = Some r' → r ≠ r')
  ∧ (∀ row, (row < n)%nat → ∃ r, r ∈ indexes this ∧ vals r = vals row).
Proof.
  intros Hsort Hthis. split; [|split; [|split]].
  - intros r Hr.
    by destruct (Index_ctor_indexes_rows w sort Hsort n vals this r Hthis Hr).
  - apply unique_sorted.
    by apply (Index_ctor_group_start_sorted w sort Hsort n).
  - intros i r r'. unfold indexes.
    destruct (group_start this) as [|x l]; [done|].
    apply unique_from_adjacent.
  - intros row Hrow. by eapply Index_ctor_indexes_cover.
Qed.

Lemma indexes_cover_keys_witness :
  let vals := vals_of [3; 1; 3; 2; 1]%nat in
  let this := {| ix := [1; 4; 3; 0; 2]%nat;
                 group_start := [1; 4; 3; 0; 0]%nat |} in
  (∀ r, r ∈ indexes this → (r < 5)%nat)
  ∧ StronglySorted (λ a a', ¬ key_lt (vals a') (vals a)) (indexes this)
  ∧ (∀ (i : nat) r r',
       indexes this !! i = Some r → indexes this !! S i = Some r' → r ≠ r')
  ∧ (∀ row, (row < 5)%nat → ∃ r, r ∈ indexes this ∧ vals r = vals row).
Proof.
  exact (indexes_cover_keys 32 insertion_sort 5
           (vals_of [3; 1; 3; 2; 1]%nat) _ insertion_sort_contract eq_refl).
Defined.

Lemma StronglySorted_irrefl_NoDup {A} (R : relation A) l :
  (∀ x, ¬ R x x) → StronglySorted R l → NoDup l.
Proof.
  intros Hirr. induction 1 as [|x l Hs IH Hx]; constructor; [|done].
  intros Hin. rewrite Forall_forall in Hx. by apply (Hirr x), Hx.
Qed.

(** A range of a chain begins where the chain does or where the range
    before it ends. *)
Lemma chain_lookup rs from to (k : nat) r :
  chain rs from to → rs !! k = Some r →
  (b r < e r ≤ to)%nat
  ∧ ((k = 0%nat ∧ b r = from)
     ∨ ∃ (k' : nat) r', k = S k' ∧ rs !! k' = Some r' ∧ e r' = b r
                         ∧ (b r' < e r')%nat).
Proof.
  revert from k. induction rs as [|r0 rs IH]; intros from k Hc Hk; [done|].
  cbn in Hc. destruct Hc as (Hb & Hlt & Hc).
  pose proof (chain_le _ _ _ Hc) as Hle.
  destruct k as [|k]; cbn in Hk.
  - injection Hk as <-. split; [lia|]. left. done.
  - destruct (IH _ _ Hc Hk) as [Hr [[-> Hbr]|(k' & r' & -> & Hr' & He & Hlt')]].
    + split; [done|]. right. exists 0%nat, r0. cbn. split; [done|].
      split; [done|]. split; [done|]. lia.
    + split; [done|]. right. exists (S k'), r'. done.
Qed.

(** X11. Where the sorted rows begin with row 0, as they do when row 0 has
    the least key and no other row has it, the constructor establishes the
    invariant of [group_start]: two sorted positions have the same entry
    exactly when their rows have equal keys, and the entry is the row at
    the first sorted position with that key. *)
Theorem Index_ctor_groups_when_row_0_first {K : Type} `{!Key K} (w : Z)
    (sort : (nat → nat → bool) → list nat → list nat)
    (n : nat) (vals : nat → K) (this : Index) :
  std_sort_contract sort →
  Index_ctor w sort n vals = Some this →
  ((0 < n)%nat →
   (∀ row, (0 < row < n)%nat → key_lt (vals 0%nat) (vals row)) →
   ix this !! 0%nat = Some 0%nat)
  ∧ (ix this !! 0%nat = Some 0%nat →
     ∀ (i j : nat) ri rj gi gj,
       ix this !! i = Some ri → ix this !! j = Some rj →
       group_start this !! i = Some gi → group_start this !! j = Some gj →
       (gi = gj ↔ vals ri = vals rj)
       ∧ ∃ q : nat,
           (q ≤ i)%nat ∧ ix this !! q = Some gi ∧ vals gi = vals ri
           ∧ ∀ (q' : nat) r', (q' < q)%nat → ix this !! q' = Some r' →
                              vals r' ≠ vals ri).
Proof.
  intros Hsort Hthis. split.
  - by apply (Index_ctor_row_0_first w sort Hsort).
  - by apply (Index_ctor_group_start_from_row_0 w sort Hsort n).
Qed.

(** Rows with the keys 1, 3, 3, 2, 3: row 0 has the least key. *)
Lemma Index_ctor_groups_when_row_0_first_witness :
  let vals := vals_of [1; 3; 3; 2; 3]%nat in
  let this := {| ix := [0; 3; 1; 2; 4]%nat;
                 group_start := [0; 3; 1; 1; 1]%nat |} in
  ix this !! 0%nat = Some 0%nat
  ∧ ∀ (i j : nat) ri rj gi gj,
      ix this !! i = Some ri → ix this !! j = Some rj →
      group_start this !! i = Some gi → group_start this !! j = Some gj →
      (gi = gj ↔ vals ri = vals rj)
      ∧ ∃ q : nat,
          (q ≤ i)%nat ∧ ix this !! q = Some gi ∧ vals gi = vals ri
          ∧ ∀ (q' : nat) r', (q' < q)%nat → ix this !! q' = Some r' →
                             vals r' ≠ vals ri.
Proof.
  intros vals this.
  assert (Index_ctor 32 insertion_sort 5 vals = Some this) as Hthis
    by (vm_compute; reflexivity).
  destruct (Index_ctor_groups_when_row_0_first 32 insertion_sort 5 vals this
              insertion_sort_contract Hthis) as [Hfirst Hinv].
  assert (ix this !! 0%nat = Some 0%nat) as H0.
  { apply Hfirst; [lia|]. intros row Hrow.
    destruct row as [|[|[|[|[|row]]]]]; try lia; vm_compute; lia. }
  split; [exact H0|exact (Hinv H0)].
Defined.

(** X12. Where the sorted rows begin with row 0, [indexes] returns one row
    for every key: the keys of the rows returned ascend strictly, no row is
    returned twice, and every row's key is the key of exactly one of
    them. *)
Theorem indexes_one_per_key_when_row_0_first {K : Type} `{!Key K} (w : Z)
    (sort : (nat → nat → bool) → list nat → list nat)
    (n : nat) (vals : nat → K) (this : Index) :
  std_sort_contract sort →
  Index_ctor w sort n vals = Some this →
  ix this !! 0%nat = Some 0%nat →
  StronglySorted (λ a a', key_lt (vals a) (vals a')) (indexes this)
  ∧ NoDup (indexes this)
  ∧ ∀ row, (row < n)%nat →
           ∃ r, r ∈ indexes this ∧ vals r = vals row
                ∧ ∀ r', r' ∈ indexes this → vals r' = vals row → r' = r.
Proof.
  intros Hsort Hthis H0.
  pose proof (Index_ctor_indexes_strict w sort Hsort n vals this Hthis H0)
    as Hstrict.
  split; [done|]. split.
  - apply (StronglySorted_irrefl_NoDup
             (λ a a', key_lt (vals a) (vals a'))); [|done].
    intros a. apply (irreflexivity key_lt).
  - intros row Hrow.
    destruct (Index_ctor_indexes_cover w sort Hsort n vals this row Hthis Hrow)
      as (r & Hr & Hv).
    exists r. split; [done|]. split; [done|]. intros r' Hr' Hv'.
    apply (Index_ctor_group_start_inj w sort Hsort n vals this);
      [done..| | |congruence].
    + unfold indexes in Hr'. by apply (proj1 (unique_elem_of _ _)) in Hr'.
    + unfold indexes in Hr. by apply (proj1 (unique_elem_of _ _)) in Hr.
Qed.

Lemma indexes_one_per_key_when_row_0_first_witness :
  let vals := vals_of [1; 3; 3; 2; 3]%nat in
  let this := {| ix := [0; 3; 1; 2; 4]%nat;
                 group_start := [0; 3; 1; 1; 1]%nat |} in
  StronglySorted (λ a a', key_lt (vals a) (vals a')) (indexes this)
  ∧ NoDup (indexes this)
  ∧ ∀ row, (row < 5)%nat →
           ∃ r, r ∈ indexes this ∧ vals r = vals row
                ∧ ∀ r', r' ∈ indexes this → vals r' = vals row → r' = r.
Proof.
  exact (indexes_one_per_key_when_row_0_first 32 insertion_sort 5
           (vals_of [1; 3; 3; 2; 3]%nat) _ insertion_sort_contract
           eq_refl eq_refl).
Defined.

(** X13. Where the sorted rows begin with row 0, the ranges [merge] hands
    over are the groups: the keys of their heads ascend strictly, rows of
    equal key are in one range, and every range's [group_head] is its first
    row. *)
Theorem merge_groups_when_row_0_first {K : Type} `{!Key K} (w : Z)
    (sort : (nat → nat → bool) → list nat → list nat)
    (n : nat) (vals : nat → K) (this : Index) :
  std_sort_contract sort →
  Index_ctor w sort n vals = Some this →
  ix this !! 0%nat = Some 0%nat →
  (∀ (k k' : nat) r r',
     (k < k')%nat → ranges this !! k = Some r → ranges this !! k' = Some r' →
     key_lt (vals (group_head r)) (vals (group_head r')))
  ∧ (∀ (k k' : nat) r r' row row',
       ranges this !! k = Some r → ranges this !! k' = Some r' →
       row ∈ range_rows this r → row' ∈ range_rows this r' →
       vals row = vals row' → k = k')
  ∧ (∀ (k : nat) r,
       ranges this !! k = Some r → ix this !! b r = Some (group_head r)).
Proof.
  intros Hsort Hthis H0.
  pose proof (Index_ctor_lengths w sort Hsort _ _ _ Hthis) as [Hlen Hlen'].
  assert (length (group_start this) = length (ix this)) as Hl by congruence.
  destruct (ranges_runs this Hl) as [Hruns Hheads].
  pose proof (Index_ctor_indexes_strict w sort Hsort n vals this Hthis H0)
    as Hstrict.
  rewrite <-Hheads in Hstrict.
  assert (∀ (k k' : nat) r r',
            (k < k')%nat → ranges this !! k = Some r →
            ranges this !! k' = Some r' →
            key_lt (vals (group_head r)) (vals (group_head r'))) as Hasc.
  { intros k k' r r' Hk Hr Hr'.
    apply (StronglySorted_lookup
             (λ a a', key_lt (vals a) (vals a')) _ k k' _ _ Hstrict Hk);
      by rewrite list_lookup_fmap, ?Hr, ?Hr'. }
  split; [done|]. split.
  - intros k k' r r' row row' Hr Hr' Hrow Hrow' Hv.
    pose proof (Index_ctor_range_keys w sort Hsort n vals this k r row
                  Hthis Hr Hrow) as Hk.
    pose proof (Index_ctor_range_keys w sort Hsort n vals this k' r' row'
                  Hthis Hr' Hrow') as Hk'.
    destruct (Nat.lt_total k k') as [Hlt|[->|Hlt]]; [|done|].
    + pose proof (Hasc _ _ _ _ Hlt Hr Hr') as Hc.
      rewrite <-Hk, <-Hk', Hv in Hc. by apply irreflexivity in Hc; [|apply _].
    + pose proof (Hasc _ _ _ _ Hlt Hr' Hr) as Hc.
      rewrite <-Hk, <-Hk', Hv in Hc. by apply irreflexivity in Hc; [|apply _].
  - intros k r Hr.
    pose proof (ranges_chain this Hl) as Hchain.
    destruct (chain_lookup _ _ _ _ _ Hchain Hr) as [Hbe Hprev].
    destruct (Hruns k r Hr) as (_ & Hin & _).
    pose proof (Hin (b r) ltac:(lia)) as Hgb.
    destruct (lookup_lt_is_Some_2 (ix this) (b r) ltac:(lia)) as [rb Hrb].
    destruct (Index_ctor_group_start_from_row_0 w sort Hsort n vals this
                Hthis H0 (b r) (b r) rb rb _ _ Hrb Hrb Hgb Hgb)
      as (_ & q & Hq & Hixq & Hvq & Hfirst).
    destruct (decide (q = b r)) as [->|Hne]; [done|]. exfalso.
    destruct Hprev as [[-> Hb0]|(k' & r' & -> & Hr' & He & Hlt')]; [lia|].
    destruct (Hruns k' r' Hr') as (_ & Hin' & Hend').
    pose proof (Hin' (b r - 1)%nat ltac:(lia)) as Hgprev.
    destruct (lookup_lt_is_Some_2 (ix this) (b r - 1)%nat ltac:(lia))
      as [rp Hrp].
    (* the row before [b r] has the key of the rows at [q] and at [b r] *)
    pose proof (Index_ctor_sorted w sort Hsort _ _ _ Hthis) as Hsorted.
    assert (¬ key_lt (vals rp) (vals (group_head r))) as H1.
    { destruct (decide (q = (b r - 1)%nat)) as [->|Hqne].
      - assert (rp = group_head r) as -> by congruence.
        apply irreflexivity, _.
      - apply by_vals_false.
        apply (StronglySorted_lookup (λ x y, by_vals vals y x = false)
                 (ix this) q (b r - 1)); [done|lia|done..]. }
    assert (¬ key_lt (vals rb) (vals rp)) as H2.
    { apply by_vals_false.
      apply (StronglySorted_lookup (λ x y, by_vals vals y x = false)
               (ix this) (b r - 1) (b r)); [done|lia|done..]. }
    rewrite Hvq in H1.
    assert (vals rp = vals rb) as Heq
      by by destruct (trichotomy key_lt (vals rp) (vals rb)) as [?|[?|?]].
    destruct (Index_ctor_group_start_from_row_0 w sort Hsort n vals this
                Hthis H0 (b r - 1)%nat (b r) rp rb _ _ Hrp Hrb Hgprev Hgb)
      as [Hiff _].
    apply Hend'; [lia|]. rewrite He, Hgb. f_equal. symmetry. by apply Hiff.
Qed.

Lemma merge_groups_when_row_0_first_witness :
  let vals := vals_of [1; 3; 3; 2; 3]%nat in
  let this := {| ix := [0; 3; 1; 2; 4]%nat;
                 group_start := [0; 3; 1; 1; 1]%nat |} in
  (∀ (k k' : nat) r r',
     (k < k')%nat → ranges this !! k = Some r → ranges this !! k' = Some r' →
     key_lt (vals (group_head r)) (vals (group_head r')))
  ∧ (∀ (k k' : nat) r r' row row',
       ranges this !! k = Some r → ranges this !! k' = Some r' →
       row ∈ range_rows this r → row' ∈ range_rows this r' →
       vals row = vals row' → k = k')
  ∧ (∀ (k : nat) r,
       ranges this !! k = Some r → ix this !! b r = Some (group_head r)).
Proof.
  exact (merge_groups_when_row_0_first 32 insertion_sort 5
           (vals_of [1; 3; 3; 2; 3]%nat) _ insertion_sort_contract
           eq_refl eq_refl).
Defined.

(** ** [range_t::for_each] and [range_t::size] *)

Lemma for_each_loop {U} (f : nat → U → U) this (u : U) (from k : nat) :
  (from + k ≤ length (ix this))%nat →
  foldl (for_each_step f this) (Some u) (seq from k)
    = Some (foldl (λ u row, f row u) u (take k (drop from (ix this)))).
Proof.
  induction k as [|k IH]; intros Hk; [done|].
  rewrite seq_S, foldl_snoc, IH by lia.
  destruct (lookup_lt_is_Some_2 (ix this) (from + k) ltac:(lia)) as [row Hrow].
  unfold for_each_step. rewrite Hrow.
  rewrite (take_S_r _ _ row) by by rewrite lookup_drop.
  by rewrite foldl_snoc.
Qed.

Lemma for_each_rows {U} (f : nat → U → U) this r (u : U) :
  (b r ≤ e r ≤ length (ix this))%nat →
  for_each f this r u
    = Some (foldl (λ u row, f row u) u (range_rows this r)).
Proof.
  intros Hr. unfold for_each. rewrite bool_decide_true by lia.
  apply for_each_loop. lia.
Qed.

Lemma chain_ranges rs from to :
  chain rs from to → Forall (λ r, (b r < e r ≤ to)%nat) rs.
Proof.
  revert from. induction rs as [|r rs IH]; intros from Hc; [constructor|].
  cbn in Hc. destruct Hc as (Hb & Hlt & Hc).
  pose proof (chain_le _ _ _ Hc). constructor; [lia|by eapply IH].
Qed.

(** Calling [for_each] on one range after another, to collect the rows. *)
Lemma for_each_collect this rs (acc : list nat) :
  Forall (λ r, (b r < e r ≤ length (ix this))%nat) rs →
  foldl (λ acc r, acc ≫= for_each (λ row rows, rows ++ [row]) this r)
    (Some acc) rs
    = Some (acc ++ concat (range_rows this <$> rs)).
Proof.
  revert acc. induction rs as [|r rs IH]; intros acc Hrs.
  - cbn. by rewrite app_nil_r.
  - apply Forall_cons in Hrs as [Hr Hrs]. cbn.
    rewrite for_each_rows by lia. rewrite foldl_snoc_all, IH by done.
    by rewrite (assoc_L (++)).
Qed.

Lemma range_rows_length this r :
  (b r ≤ e r ≤ length (ix this))%nat →
  length (range_rows this r) = range_size r.
Proof.
  intros Hr. unfold range_rows, range_size.
  rewrite length_take, length_drop. lia.
Qed.

Lemma sum_list_range_sizes this rs :
  Forall (λ r, (b r < e r ≤ length (ix this))%nat) rs →
  sum_list (range_size <$> rs) = length (concat (range_rows this <$> rs)).
Proof.
  induction 1 as [|r rs Hr Hrs IH]; [done|]. cbn.
  rewrite length_app, IH, range_rows_length; lia.
Qed.

(** X14. Whatever index [merge] is called on, [ix] and [group_start] being
    of one size: on every range handed over, [for_each] ends and has called
    its function on the rows of the range in order, and [size] is their
    number, not 0; a function that calls [for_each] on every range to
    collect the rows ends with [ix]; and the sizes add up to the size of
    [ix]. *)
Theorem for_each_over_merge (this : Index) :
  length (group_start this) = length (ix this) →
  (∀ (k : nat) r,
     ranges this !! k = Some r →
     (0 < range_size r)%nat
     ∧ range_size r = length (range_rows this r)
     ∧ ∀ (U : Type) (f : nat → U → U) (u : U),
         for_each f this r u
           = Some (foldl (λ u row, f row u) u (range_rows this r)))
  ∧ (merge (λ r acc, acc ≫= for_each (λ row rows, rows ++ [row]) this r)
       this (Some [])).2.2 = Some (ix this)
  ∧ sum_list (range_size <$> ranges this) = length (ix this).
Proof.
  intros Hlen.
  pose proof (chain_ranges _ _ _ (ranges_chain this Hlen)) as Hrs.
  split; [|split].
  - intros k r Hr. rewrite Forall_forall in Hrs.
    pose proof (Hrs r ltac:(by eapply list_elem_of_lookup_2)) as Hbe.
    split; [unfold range_size; lia|].
    split; [by rewrite range_rows_length by lia|].
    intros U f u. apply for_each_rows. lia.
  - rewrite merge_ranges, for_each_collect by done. cbn.
    by rewrite ranges_concat.
  - by rewrite (sum_list_range_sizes this), ranges_concat.
Qed.

Lemma for_each_over_merge_witness :
  let this := {| ix := [1; 4; 3; 0; 2]%nat;
                 group_start := [1; 4; 3; 0; 0]%nat |} in
  (merge (λ r acc, acc ≫= for_each (λ row rows, rows ++ [row]) this r)
     this (Some [])).2.2 = Some [1; 4; 3; 0; 2]%nat
  ∧ sum_list (range_size <$> ranges this) = 5%nat.
Proof.
  intros this.
  destruct (for_each_over_merge this eq_refl) as (_ & Hall & Hsum).
  split; [exact Hall|exact Hsum].
Defined.

(** ** Utility functions: further properties *)

Lemma transform_zip_with {A B : Type} (t : list A) (s : list B)
    (f : A → B → A) :
  length t = length s →
  utility.transform t s f = (zip_with f t s, utility.returned).
Proof.
  intros Hlen. unfold utility.transform.
  rewrite bool_decide_false by by intros ?. f_equal.
  destruct (transform_loop f s t (length t) ltac:(lia) Hlen) as [Hl Hi].
  apply list_eq. intros i. rewrite lookup_zip_with.
  destruct (t !! i) as [x|] eqn:Hx.
  - destruct (lookup_lt_is_Some_2 s i) as [y Hy].
    { rewrite <-Hlen. by eapply lookup_lt_Some. }
    rewrite (Hi i x y Hx Hy), Hy. cbn.
    rewrite decide_True; [done|]. by eapply lookup_lt_Some.
  - cbn. apply lookup_ge_None. rewrite Hl. by apply lookup_ge_None.
Qed.

Lemma transform_scalar_loop {A V : Type} (f : A → V → A) (v : V)
    (t : list A) (m : nat) :
  (m ≤ length t)%nat →
  foldl (transform_scalar_step f v) t (seq 0 m)
    = ((λ val, f val v) <$> take m t) ++ drop m t.
Proof.
  induction m as [|m IH]; intros Hm; [by rewrite drop_0|].
  rewrite seq_S, foldl_snoc, IH, Nat.add_0_l by lia.
  destruct (lookup_lt_is_Some_2 t m ltac:(lia)) as [x Hx].
  assert (length ((λ val, f val v) <$> take m t) = m) as Hlen
    by (rewrite length_fmap, length_take; lia).
  unfold transform_scalar_step.
  rewrite lookup_app_r, Hlen, Nat.sub_diag, lookup_drop, Nat.add_0_r, Hx
    by lia.
  rewrite insert_app_r_alt, Hlen, Nat.sub_diag by lia.
  rewrite (drop_S _ _ _ Hx). cbn.
  rewrite (take_S_r _ _ _ Hx), fmap_app. cbn. by rewrite <-(assoc_L (++)).
Qed.

(** X15. The overloads of [transform] that take one value [v]: whatever the
    column, nothing is checked; each element [x] becomes [f(x, v)] and the
    size stays; both overloads give the same column, the one the overload
    for two columns gives when the second column is [v] throughout. *)
Theorem transform_scalar_maps {A V : Type} (t : list A) (v : V)
    (f : A → V → A) :
  transform_scalar t v f = (λ x, f x v) <$> t
  ∧ transform_scalar_copy t v f = (λ x, f x v) <$> t
  ∧ length (transform_scalar t v f) = length t
  ∧ utility.transform t (replicate (length t) v) f
      = (transform_scalar t v f, utility.returned).
Proof.
  assert (transform_scalar t v f = (λ x, f x v) <$> t) as Heq.
  { unfold transform_scalar. rewrite transform_scalar_loop by lia.
    by rewrite firstn_all, drop_all, app_nil_r. }
  split; [done|]. split; [done|]. split; [by rewrite Heq, length_fmap|].
  rewrite transform_zip_with by by rewrite length_replicate.
  f_equal. rewrite Heq. apply list_eq. intros i.
  rewrite lookup_zip_with, list_lookup_fmap.
  destruct (t !! i) as [x|] eqn:Hx; [|done]. cbn.
  rewrite lookup_replicate_2; [done|]. by eapply lookup_lt_Some.
Qed.

(** X16. A function that returns its first argument makes [transform]
    leave the column as it was, with a second column of the same size and
    with one value. *)
Theorem transform_first_argument {A B : Type} (t : list A) (s : list B)
    (v : B) (f : A → B → A) :
  (∀ x y, f x y = x) →
  (length t = length s → utility.transform t s f = (t, utility.returned))
  ∧ transform_scalar t v f = t.
Proof.
  intros Hf. split.
  - intros Hlen. rewrite transform_zip_with by done. f_equal.
    apply list_eq. intros i. rewrite lookup_zip_with.
    destruct (t !! i) as [x|] eqn:Hx; [|done]. cbn.
    destruct (lookup_lt_is_Some_2 s i) as [y ->].
    { rewrite <-Hlen. by eapply lookup_lt_Some. }
    cbn. by rewrite Hf.
  - unfold transform_scalar. rewrite transform_scalar_loop by lia.
    rewrite firstn_all, drop_all, app_nil_r.
    rewrite <-(list_fmap_id t) at 2. apply list_fmap_ext. intros i x _.
    apply Hf.
Qed.

Lemma transform_first_argument_witness :
  utility.transform [1; 2; 3] [10; 20; 30] (λ x _ : Z, x)
    = ([1; 2; 3], utility.returned)
  ∧ transform_scalar [1; 2; 3] 10 (λ x _ : Z, x) = [1; 2; 3].
Proof.
  destruct (transform_first_argument [1; 2; 3] [10; 20; 30] 10
              (λ x _ : Z, x) ltac:(done)) as [H1 H2].
  split; [exact (H1 eq_refl)|exact H2].
Defined.

Section filter_more.
Context {T : Type} (t : list T).

(** An index out of range makes the behaviour undefined, wherever it
    stands. *)
Lemma filter_out_of_range_None (ix : list nat) (i : nat) :
  i ∈ ix → (length t ≤ i)%nat → utility.filter t ix = None.
Proof.
  intros Hin Hi. induction ix as [|j ix IH] using rev_ind.
  - by apply elem_of_nil in Hin.
  - rewrite filter_snoc. apply elem_of_app in Hin as [Hin|Hin].
    + by rewrite IH.
    + apply list_elem_of_singleton in Hin as <-.
      rewrite (proj2 (lookup_ge_None t i) Hi).
      by destruct (utility.filter t ix).
Qed.

Lemma filter_Some_in_range (ix : list nat) ret :
  utility.filter t ix = Some ret →
  (∀ i, i ∈ ix → (i < length t)%nat)
  ∧ length ret = length ix
  ∧ ∀ (k i : nat), ix !! k = Some i → ret !! k = t !! i.
Proof.
  intros Hret.
  assert (∀ i, i ∈ ix → (i < length t)%nat) as Hin.
  { intros i Hi. destruct (decide (i < length t)%nat); [done|].
    rewrite (filter_out_of_range_None ix i) in Hret by (done || lia).
    done. }
  split; [done|].
  destruct (filter_in_range t ix Hin) as (ret' & Hret' & Hlen & Hk).
  by assert (ret = ret') as -> by congruence.
Qed.

Lemma filter_None_inv (ix : list nat) :
  utility.filter t ix = None → ∃ i, i ∈ ix ∧ (length t ≤ i)%nat.
Proof.
  intros Hnone.
  destruct (decide (Forall (λ i, i < length t)%nat ix)) as [Hall|Hex].
  - rewrite Forall_forall in Hall.
    destruct (filter_in_range t ix Hall) as (ret & Hret & _). congruence.
  - apply not_Forall_Exists in Hex; [|apply _].
    apply Exists_exists in Hex as (i & Hi & Hge). exists i.
    split; [done|]. cbn in Hge. lia.
Qed.

Lemma filter_seq : utility.filter t (seq 0 (length t)) = Some t.
Proof.
  destruct (filter_in_range t (seq 0 (length t))) as (ret & Hret & Hlen & Hk).
  { intros i Hi%elem_of_seq. lia. }
  rewrite Hret. f_equal. rewrite length_seq in Hlen.
  apply list_eq. intros k. destruct (decide (k < length t)%nat) as [Hlt|Hge].
  - apply Hk. by rewrite lookup_seq_lt.
  - rewrite !(proj2 (lookup_ge_None _ _)); [done|lia..].
Qed.

End filter_more.

(** X17. [filter] fails exactly on an index out of range: its behaviour is
    undefined if and only if some index is not below the size of the
    column. *)
Theorem filter_out_of_range {T : Type} (t : list T) (ix : list nat) :
  utility.filter t ix = None ↔ ∃ i, i ∈ ix ∧ (length t ≤ i)%nat.
Proof.
  split.
  - apply filter_None_inv.
  - intros (i & Hi & Hge). by eapply filter_out_of_range_None.
Qed.

(** X18. [filter] with the indices [0 .. size-1] returns the column; and
    filtering what [filter] returned is filtering the column once, by the
    indices filtered in the same way. *)
Theorem filter_filter {T : Type} (t t' : list T) (ix jx : list nat) :
  utility.filter t (seq 0 (length t)) = Some t
  ∧ (utility.filter t ix = Some t' →
     utility.filter t' jx = utility.filter ix jx ≫= utility.filter t).
Proof.
  split.
  - apply filter_seq.
  - intros Ht'.
    destruct (filter_Some_in_range t ix t' Ht') as (Hin & Hlen & Hk).
    destruct (utility.filter ix jx) as [kx|] eqn:Hkx; cbn.
    + destruct (filter_Some_in_range ix jx kx Hkx) as (Hjin & Hjlen & Hjk).
      destruct (filter_in_range t' jx) as (r1 & Hr1 & Hl1 & Hk1).
      { intros j Hj. rewrite Hlen. by apply Hjin. }
      destruct (filter_in_range t kx) as (r2 & Hr2 & Hl2 & Hk2).
      { intros i [m Hm]%list_elem_of_lookup. apply Hin.
        pose proof (lookup_lt_Some _ _ _ Hm) as Hlt. rewrite Hjlen in Hlt.
        destruct (lookup_lt_is_Some_2 jx m Hlt) as [j Hj].
        rewrite (Hjk m j Hj) in Hm. by eapply list_elem_of_lookup_2. }
      rewrite Hr1, Hr2. f_equal. apply list_eq. intros m.
      destruct (jx !! m) as [j|] eqn:Hj.
      * rewrite (Hk1 m j Hj).
        pose proof (Hjk m j Hj) as Hkm.
        destruct (lookup_lt_is_Some_2 ix j) as [i Hi].
        { apply Hjin. by eapply list_elem_of_lookup_2. }
        rewrite Hi in Hkm. rewrite (Hk2 m i Hkm). by apply Hk.
      * apply lookup_ge_None in Hj.
        rewrite !(proj2 (lookup_ge_None _ _)); [done|lia..].
    + apply filter_None_inv in Hkx as (j & Hj & Hge).
      apply (filter_out_of_range_None t' jx j); [done|lia].
Qed.

Lemma filter_filter_witness :
  utility.filter ["a"; "b"; "c"] (seq 0 3) = Some ["a"; "b"; "c"]
  ∧ utility.filter ["c"; "a"] [1; 1; 0]%nat
      = utility.filter [2; 0]%nat [1; 1; 0]%nat
          ≫= utility.filter ["a"; "b"; "c"].
Proof.
  destruct (filter_filter ["a"; "b"; "c"] ["c"; "a"] [2; 0]%nat
              [1; 1; 0]%nat) as [Hid Hcomp].
  split; [exact Hid|exact (Hcomp eq_refl)].
Defined.

(** X19. [filter] and [transform] commute: for two columns of one size and
    indices all below it, filtering both and combining them gives what
    combining them and filtering gives, and no call fails. *)
Theorem filter_transform {A B : Type} (t : list A) (s : list B)
    (f : A → B → A) (ix : list nat) :
  length t = length s →
  (∀ i, i ∈ ix → (i < length t)%nat) →
  ∃ t' s' r,
    utility.filter t ix = Some t' ∧ utility.filter s ix = Some s'
    ∧ utility.transform t' s' f = (r, utility.returned)
    ∧ utility.filter (utility.transform t s f).1 ix = Some r.
Proof.
  intros Hlen Hin.
  destruct (filter_in_range t ix Hin) as (t' & Ht' & Hlt & Hkt).
  destruct (filter_in_range s ix) as (s' & Hs' & Hls & Hks).
  { intros i Hi. rewrite <-Hlen. by apply Hin. }
  exists t', s', (zip_with f t' s').
  split; [done|]. split; [done|].
  split; [apply transform_zip_with; congruence|].
  rewrite transform_zip_with by done. cbn.
  destruct (filter_in_range (zip_with f t s) ix) as (r & Hr & Hlr & Hkr).
  { intros i Hi. rewrite length_zip_with, <-Hlen, Nat.min_id. by apply Hin. }
  rewrite Hr. f_equal. apply list_eq. intros k.
  rewrite lookup_zip_with. destruct (ix !! k) as [i|] eqn:Hi.
  - by rewrite (Hkr k i Hi), (Hkt k i Hi), (Hks k i Hi), lookup_zip_with.
  - apply lookup_ge_None in Hi.
    rewrite !(proj2 (lookup_ge_None _ _)); [done|lia..].
Qed.

Lemma filter_transform_witness :
  ∃ t' s' r,
    utility.filter [1; 2; 3] [2; 0]%nat = Some t'
    ∧ utility.filter [10; 20; 30] [2; 0]%nat = Some s'
    ∧ utility.transform t' s' Z.add = (r, utility.returned)
    ∧ utility.filter (utility.transform [1; 2; 3] [10; 20; 30] Z.add).1
        [2; 0]%nat = Some r.
Proof.
  apply (filter_transform [1; 2; 3] [10; 20; 30] Z.add [2; 0]%nat eq_refl).
  intros i Hi. apply list_elem_of_In in Hi. cbn in *.
  destruct Hi as [<-|[<-|[]]]; lia.
Defined.

Section filter_cons.
Context {T : Type} (t : list T).

Lemma filter_loop_cons (ix : list nat) (acc : list T) :
  foldl (utility.filter_step t) (Some acc) ix
    = (acc ++.) <$> utility.filter t ix.
Proof.
  revert acc. induction ix as [|i ix IH] using rev_ind; intros acc.
  - cbn. by rewrite app_nil_r.
  - rewrite filter_snoc, foldl_snoc, IH. unfold utility.filter_step.
    destruct (utility.filter t ix) as [ret|]; [|done]. cbn.
    destruct (t !! i); [|done]. cbn. by rewrite (assoc_L (++)).
Qed.

(** The loop of [filter], taken from its first round. *)
Lemma filter_cons (i : nat) (ix : list nat) :
  utility.filter t (i :: ix) =
    match t !! i, utility.filter t ix with
    | Some x, Some ret => Some (x :: ret)
    | _, _ => None
    end.
Proof.
  unfold utility.filter at 1. cbn. destruct (t !! i) as [x|].
  - rewrite (filter_loop_cons ix [x]).
    by destruct (utility.filter t ix).
  - clear. induction ix as [|j ix IH]; [done|]. by cbn.
Qed.

Lemma filter_Permutation (ix ix' : list nat) ret :
  ix ≡ₚ ix' → utility.filter t ix = Some ret →
  ∃ ret', utility.filter t ix' = Some ret' ∧ ret ≡ₚ ret'.
Proof.
  intros Hp. revert ret.
  induction Hp as [|i ix ix' Hp IH|i j ix|ix ix' ix'' Hp IH Hp' IH'];
    intros ret.
  - intros [= <-]. by exists [].
  - rewrite !filter_cons. destruct (t !! i) as [x|]; [|done].
    destruct (utility.filter t ix) as [r|]; [|done]. intros [= <-].
    destruct (IH r eq_refl) as (r' & -> & Hr). exists (x :: r').
    split; [done|]. by constructor.
  - rewrite !filter_cons. destruct (t !! i) as [x|], (t !! j) as [y|],
      (utility.filter t ix) as [r|]; try done.
    intros [= <-]. exists (x :: y :: r). split; [done|]. apply perm_swap.
  - intros Hret. destruct (IH ret Hret) as (r' & Hr' & Hp1).
    destruct (IH' r' Hr') as (r'' & Hr'' & Hp2). exists r''.
    split; [done|]. by etrans.
Qed.

End filter_cons.

(** X20. [filter] by the [ix] of an index built over the rows of a column
    rearranges the column; the column of the keys comes out with no key
    smaller than one before it. *)
Theorem filter_by_ix {K A : Type} `{!Key K} (w : Z)
    (sort : (nat → nat → bool) → list nat → list nat)
    (n : nat) (vals : nat → K) (this : Index)
    (col : list A) (keys : list K) :
  std_sort_contract sort →
  Index_ctor w sort n vals = Some this →
  length col = n → length keys = n →
  (∀ (row : nat) key, keys !! row = Some key → vals row = key) →
  ∃ col' keys',
    utility.filter col (ix this) = Some col' ∧ col' ≡ₚ col
    ∧ utility.filter keys (ix this) = Some keys' ∧ keys' ≡ₚ keys
    ∧ StronglySorted (λ key key', ¬ key_lt key' key) keys'.
Proof.
  intros Hsort Hthis Hcol Hkeys Hvals.
  pose proof (Index_ctor_Permutation w sort Hsort _ _ _ Hthis) as Hp.
  pose proof (Index_ctor_sorted w sort Hsort _ _ _ Hthis) as Hsorted.
  destruct (filter_Permutation col (seq 0 (length col)) (ix this) col)
    as (col' & Hcol' & Hpc); [by rewrite Hcol|apply filter_seq|].
  destruct (filter_Permutation keys (seq 0 (length keys)) (ix this) keys)
    as (keys' & Hkeys' & Hpk); [by rewrite Hkeys|apply filter_seq|].
  exists col', keys'. split; [done|]. split; [done|].
  split; [done|]. split; [done|].
  destruct (filter_Some_in_range keys (ix this) keys' Hkeys')
    as (_ & _ & Hk).
  assert (length (ix this) = n) as Hlen by (by rewrite Hp, length_seq).
  apply StronglySorted_from_lookup. intros i j key key' Hij Hi Hj.
  destruct (lookup_lt_is_Some_2 (ix this) i) as [ri Hri].
  { apply lookup_lt_Some in Hi. rewrite <-(Permutation_length Hpk) in Hi.
    lia. }
  destruct (lookup_lt_is_Some_2 (ix this) j) as [rj Hrj].
  { apply lookup_lt_Some in Hj. rewrite <-(Permutation_length Hpk) in Hj.
    lia. }
  rewrite (Hk i ri Hri) in Hi. rewrite (Hk j rj Hrj) in Hj.
  rewrite <-(Hvals _ _ Hi), <-(Hvals _ _ Hj). apply by_vals_false.
  by apply (StronglySorted_lookup (λ x y, by_vals vals y x = false)
              (ix this) i j).
Qed.

(** The specification's second scenario: the keys 3, 1, 3, 2, 1 come out
    as 1, 1, 2, 3, 3. *)
Lemma filter_by_ix_witness :
  let this := {| ix := [1; 4; 3; 0; 2]%nat;
                 group_start := [1; 4; 3; 0; 0]%nat |} in
  ∃ col' keys',
    utility.filter ["c"; "a"; "c"; "b"; "a"] (ix this) = Some col'
    ∧ col' ≡ₚ ["c"; "a"; "c"; "b"; "a"]
    ∧ utility.filter [3; 1; 3; 2; 1]%nat (ix this) = Some keys'
    ∧ keys' ≡ₚ [3; 1; 3; 2; 1]%nat
    ∧ StronglySorted (λ key key', ¬ key_lt key' key) keys'.
Proof.
  refine (filter_by_ix (Key0:=nat_Key) 32 insertion_sort 5
           (vals_of [3; 1; 3; 2; 1]%nat)
           {| ix := [1; 4; 3; 0; 2]%nat;
              group_start := [1; 4; 3; 0; 0]%nat |}
           ["c"; "a"; "c"; "b"; "a"] [3; 1; 3; 2; 1]%nat
           insertion_sort_contract eq_refl eq_refl eq_refl _).
  intros row key Hrow. unfold vals_of.
  by apply list_lookup_total_correct.
Defined.

(** X21. Of an index that was built, whatever the keys: for a column whose
    values depend on the key of the row only, [filter] by [group_start]
    returns what [filter] by [ix] returns, the value of every sorted row's
    group. *)
Theorem filter_by_group_start {K A : Type} `{!Key K} (w : Z)
    (sort : (nat → nat → bool) → list nat → list nat)
    (n : nat) (vals : nat → K) (this : Index) (col : list A) :
  std_sort_contract sort →
  Index_ctor w sort n vals = Some this →
  length col = n →
  (∀ (row row' : nat) x x',
     col !! row = Some x → col !! row' = Some x' →
     vals row = vals row' → x = x') →
  ∃ col',
    utility.filter col (group_start this) = Some col'
    ∧ utility.filter col (ix this) = Some col'.
Proof.
  intros Hsort Hthis Hcol Hdep.
  pose proof (Index_ctor_Permutation w sort Hsort _ _ _ Hthis) as Hp.
  pose proof (Index_ctor_lengths w sort Hsort _ _ _ Hthis) as [Hlen Hlen'].
  destruct (Index_ctor_group_start_keys w sort Hsort _ _ _ Hthis)
    as (_ & Hkeys & _).
  assert (∀ i, i ∈ ix this → (i < length col)%nat) as Hin.
  { intros i Hi. rewrite Hp in Hi. apply elem_of_seq in Hi. lia. }
  destruct (filter_in_range col (ix this) Hin) as (r2 & Hr2 & Hl2 & Hk2).
  destruct (filter_in_range col (group_start this))
    as (r1 & Hr1 & Hl1 & Hk1).
  { intros g [i Hi]%list_elem_of_lookup.
    destruct (Hkeys _ _ Hi) as (q & ri & Hq & _).
    apply Hin. by eapply list_elem_of_lookup_2. }
  exists r1. split; [done|]. rewrite Hr2. f_equal.
  apply list_eq. intros k.
  destruct (group_start this !! k) as [g|] eqn:Hg.
  - destruct (Hkeys _ _ Hg) as (q & ri & Hq & Hri & Hv).
    rewrite (Hk1 k g Hg), (Hk2 k ri Hri).
    destruct (lookup_lt_is_Some_2 col g) as [x Hx].
    { apply Hin. by eapply list_elem_of_lookup_2. }
    destruct (lookup_lt_is_Some_2 col ri) as [x' Hx'].
    { apply Hin. by eapply list_elem_of_lookup_2. }
    rewrite Hx, Hx'. f_equal. symmetry. by eapply Hdep.
  - apply lookup_ge_None in Hg.
    rewrite !(proj2 (lookup_ge_None _ _)); [done|lia..].
Qed.

Lemma filter_by_group_start_witness :
  let this := {| ix := [1; 4; 3; 0; 2]%nat;
                 group_start := [1; 4; 3; 0; 0]%nat |} in
  ∃ col',
    utility.filter [3; 1; 3; 2; 1]%nat (group_start this) = Some col'
    ∧ utility.filter [3; 1; 3; 2; 1]%nat (ix this) = Some col'.
Proof.
  refine (filter_by_group_start (Key0:=nat_Key) 32 insertion_sort 5
           (vals_of [3; 1; 3; 2; 1]%nat)
           {| ix := [1; 4; 3; 0; 2]%nat;
              group_start := [1; 4; 3; 0; 0]%nat |}
           [3; 1; 3; 2; 1]%nat insertion_sort_contract eq_refl eq_refl _).
  intros row row' x x' Hx Hx'. unfold vals_of.
  rewrite (list_lookup_total_correct _ _ _ Hx).
  by rewrite (list_lookup_total_correct _ _ _ Hx').
Defined.
